(** * tinyalsa-cxx: the PCM handle, the device-name parser and the PCM list

    A shallow embedding of [tinyalsa.cpp].  Integers of the C++ code are
    [Z] (signed [int], descriptors, error codes) or [N] ([size_type], with
    its wrap-around written out); C strings are [list ascii], the
    terminating NUL left implicit; the system calls are an interface the
    development is parametric in, and every call is recorded in a trace. *)

From Stdlib Require Import String Ascii DecimalString DecimalN.
From Stdlib Require Import ZArith NArith Bool List Lia.
Import ListNotations.

Local Open Scope Z_scope.

(** ** Platform constants ([errno.h], [fcntl.h], [sound/asound.h]) *)

Definition ENOENT : Z := 2.
Definition ENOMEM : Z := 12.
Definition EINVAL : Z := 22.
Definition EPROTO : Z := 71.

Definition O_RDWR : Z := 2.
Definition O_NONBLOCK : Z := 2048.

Definition SNDRV_PCM_CLASS_GENERIC : Z := 0.
Definition SNDRV_PCM_CLASS_MULTI : Z := 1.
Definition SNDRV_PCM_CLASS_MODEM : Z := 2.
Definition SNDRV_PCM_CLASS_DIGITIZER : Z := 3.

Definition SNDRV_PCM_SUBCLASS_GENERIC_MIX : Z := 0.
Definition SNDRV_PCM_SUBCLASS_MULTI_MIX : Z := 1.

(** ** Native ALSA to TinyALSA *)

Inductive pcm_class :=
| class_unknown
| class_generic
| class_multi_channel
| class_modem
| class_digitizer.

Inductive pcm_subclass :=
| subclass_unknown
| subclass_generic_mix
| subclass_multi_channel_mix.

(** [struct snd_pcm_info], the fields the code reads. *)
Record snd_pcm_info := {
  n_device : Z;
  n_subdevice : Z;
  n_card : Z;
  n_id : list ascii;
  n_name : list ascii;
  n_subname : list ascii;
  n_dev_class : Z;
  n_dev_subclass : Z;
  n_subdevices_count : Z;
  n_subdevices_avail : Z
}.

Record pcm_info := {
  device : Z;
  subdevice : Z;
  card : Z;
  subdevices_count : Z;
  subdevices_available : Z;
  id : list ascii;
  name : list ascii;
  subname : list ascii;
  class_ : pcm_class;
  subclass : pcm_subclass
}.

(** ** What [tinyalsa.hpp] fixes

    The header is not part of the sources at hand.  What the code takes
    from it and [tinyalsa.cpp] does not show is kept as parameters: the
    width of [size_type] (an unsigned integer type, wide enough to index
    a string, that the code prints with [%lu]), the value [invalid_fd()]
    returns, and the value-initialised [pcm_info], whose three text
    buffers have the capacities the header declares. *)

Class Target := {
  size_type_bits : N;
  invalid_fd : Z;
  pcm_info_init : pcm_info
}.

(** [size_type(x)]: conversion to the unsigned type. *)
Definition to_size_type `{Target} (x : N) : N := (x mod 2 ^ size_type_bits)%N.

(** Conversion of a signed value to [size_type]. *)
Definition size_type_of_Z `{Target} (x : Z) : N :=
  Z.to_N (x mod 2 ^ Z.of_N size_type_bits).

(** ** Results *)

Record result := mk_result { error : Z }.

Definition failed (r : result) : bool := negb (error r =? 0).

Record generic_result (A : Type) := mk_generic_result {
  gr_error : Z;
  gr_value : A
}.
Arguments mk_generic_result {A} _ _.
Arguments gr_error {A} _.
Arguments gr_value {A} _.

Definition gr_failed {A} (r : generic_result A) : bool :=
  negb (gr_error r =? 0).

Definition unwrap {A} (r : generic_result A) : A := gr_value r.

Definition to_tinyalsa_class (native_class_ : Z) : pcm_class :=
  if native_class_ =? SNDRV_PCM_CLASS_GENERIC then class_generic
  else if native_class_ =? SNDRV_PCM_CLASS_MULTI then class_multi_channel
  else if native_class_ =? SNDRV_PCM_CLASS_MODEM then class_modem
  else if native_class_ =? SNDRV_PCM_CLASS_DIGITIZER then class_digitizer
  else class_unknown.

Definition to_tinyalsa_subclass (native_subclass : Z) : pcm_subclass :=
  if native_subclass =? SNDRV_PCM_SUBCLASS_GENERIC_MIX then subclass_generic_mix
  else if native_subclass =? SNDRV_PCM_SUBCLASS_MULTI_MIX
       then subclass_multi_channel_mix
  else subclass_unknown.

(** [memcpy(dst, src, std::min(sizeof(dst), sizeof(src)))]: the first
    bytes of [dst] are overwritten, the others stay. *)
Definition memcpy_min (dst src : list ascii) : list ascii :=
  let n := Nat.min (length dst) (length src) in
  firstn n src ++ skipn n dst.

Definition to_tinyalsa_info `{Target} (native_info : snd_pcm_info) : pcm_info :=
  let out := pcm_info_init in
  {| device := n_device native_info;
     subdevice := n_subdevice native_info;
     card := n_card native_info;
     subdevices_count := n_subdevices_count native_info;
     subdevices_available := n_subdevices_avail native_info;
     id := memcpy_min (id out) (n_id native_info);
     name := memcpy_min (name out) (n_name native_info);
     subname := memcpy_min (subname out) (n_subname native_info);
     class_ := to_tinyalsa_class (n_dev_class native_info);
     subclass := to_tinyalsa_subclass (n_dev_subclass native_info) |}.

(** ** The name parser *)

(** A C string is the list of its characters; [char_at name i] is
    [name[i]], which reads the terminating NUL at [i = strlen name]. *)
Definition cstring := list ascii.

Definition strlen (name : cstring) : nat := length name.

Definition char_at (name : cstring) (i : nat) : ascii := nth i name Ascii.zero.

Definition cstr (s : string) : cstring := list_ascii_of_string s.

Module parsed_name.

Record t := mk {
  valid : bool;
  card : N;
  device : N;
  is_capture : bool
}.

(** The default member values. *)
Definition init : t :=
  {| valid := false; card := 0; device := 0; is_capture := false |}.

Definition is_dec (c : ascii) : bool :=
  (("0"%char <=? c)%char && (c <=? "9"%char)%char)%bool.

Definition to_dec `{Target} (c : ascii) : N :=
  size_type_of_Z (Z.of_N (N_of_ascii c) - Z.of_N (N_of_ascii "0"%char)).

(** [for (i = from; i < from + count; i++) if (name[i] == 'D') { d_pos = i; break; }]
    with [d_pos] initially [fallback]. *)
Fixpoint find_D (name : cstring) (from count fallback : nat) : nat :=
  match count with
  | O => fallback
  | S count' =>
      if (char_at name from =? "D")%char then from
      else find_D name (S from) count' fallback
  end.

(** One of the two digit loops: [count] iterations from index [from],
    accumulating into [acc].  The boolean is [false] when the loop left
    through [return false]; the number is the field as the loop left it. *)
Fixpoint parse_number `{Target} (name : cstring) (from count : nat) (acc : N)
  : bool * N :=
  match count with
  | O => (true, acc)
  | S count' =>
      if is_dec (char_at name from) then
        let acc := to_size_type (acc * 10) in
        let acc := to_size_type (acc + to_dec (char_at name from)) in
        parse_number name (S from) count' acc
      else (false, acc)
  end.

(** [parsed_name::parse]: the returned flag and the fields as they are
    left. *)
Definition parse `{Target} (name : cstring) (self : t) : bool * t :=
  let name_length := strlen name in
  if (name_length =? 0)%nat then (false, self)
  else if (negb (char_at name 0 =? "p")%char
           || negb (char_at name 1 =? "c")%char
           || negb (char_at name 2 =? "m")%char
           || negb (char_at name 3 =? "C")%char)%bool
  then (false, self)
  else
    let d_pos := find_D name 4 (name_length - 4) name_length in
    if (name_length <=? d_pos)%nat then (false, self)
    else
      let last := char_at name (name_length - 1) in
      if (negb (last =? "c")%char && negb (last =? "p")%char)%bool
      then (false, self)
      else
        let self := {| valid := valid self; card := 0; device := 0;
                       is_capture := (last =? "c")%char |} in
        let '(ok, c) := parse_number name 4 (d_pos - 4) 0%N in
        let self := {| valid := valid self; card := c; device := device self;
                       is_capture := is_capture self |} in
        if negb ok then (false, self)
        else
          let '(ok, d) :=
            parse_number name (S d_pos) (name_length - 1 - S d_pos) 0%N in
          let self := {| valid := valid self; card := card self; device := d;
                         is_capture := is_capture self |} in
          if negb ok then (false, self) else (true, self).

(** The constructor: [valid = parse(name)]. *)
Definition make `{Target} (name : cstring) : t :=
  let '(ok, self) := parse name init in
  {| valid := ok; card := card self; device := device self;
     is_capture := is_capture self |}.

End parsed_name.

(** ** A concrete target

    LP64 Linux, for concrete runs: 64-bit [size_type], [-1] for the
    invalid descriptor and zero-filled buffers of 64, 80 and 32 bytes. *)
Definition linux64 : Target :=
  {| size_type_bits := 64;
     invalid_fd := -1;
     pcm_info_init :=
       {| device := 0; subdevice := 0; card := 0;
          subdevices_count := 0; subdevices_available := 0;
          id := repeat Ascii.zero 64;
          name := repeat Ascii.zero 80;
          subname := repeat Ascii.zero 32;
          class_ := class_unknown; subclass := subclass_unknown |} |}.

(** ** The host: system calls and the allocator

    The code talks to the kernel through [open], [close], [ioctl],
    [opendir]/[readdir]/[closedir] and to the allocator through
    [new (std::nothrow)] and the growth of a [std::vector].  What they
    answer is not the code's business: the development is parametric in a
    [Host], whose state [world] every call may change and whose [errno]
    is read after a failed call. *)

Inductive ioctl_request :=
| SNDRV_PCM_IOCTL_INFO
| SNDRV_PCM_IOCTL_PREPARE
| SNDRV_PCM_IOCTL_START
| SNDRV_PCM_IOCTL_DROP
| SNDRV_PCM_IOCTL_READI_FRAMES.

(** [struct snd_xferi]; the buffer is an address. *)
Record snd_xferi := {
  xf_result : Z;
  xf_buf : Z;
  xf_frames : N
}.

Class Host := {
  world : Type;
  errno : world -> Z;
  host_open : cstring -> Z -> world -> Z * world;
  host_close : Z -> world -> Z * world;
  (** an [ioctl] without argument *)
  host_ioctl : Z -> ioctl_request -> world -> Z * world;
  (** [SNDRV_PCM_IOCTL_INFO]: the answer and the structure as the call
      leaves it *)
  host_ioctl_info : Z -> world -> Z * snd_pcm_info * world;
  (** [SNDRV_PCM_IOCTL_READI_FRAMES]: the answer and the transfer
      structure as the call leaves it *)
  host_ioctl_readi : Z -> snd_xferi -> world -> Z * snd_xferi * world;
  (** [opendir]: [None] for a null pointer, otherwise the names the
      stream will deliver through [readdir], in order, before it returns
      null *)
  host_opendir : cstring -> world -> option (list cstring) * world;
  (** does an allocation succeed? *)
  host_alloc : world -> bool * world
}.

(** The calls the code issues, with what they returned. *)
Inductive event :=
| ev_open (path : cstring) (flags : Z) (ret : Z)
| ev_close (fd : Z) (ret : Z)
| ev_ioctl (fd : Z) (request : ioctl_request) (ret : Z)
| ev_opendir (path : cstring) (ok : bool)
| ev_closedir.

Section WithHost.

Context `{Target} `{Host}.

(** The state the code runs in: the host and the calls issued so far,
    oldest first. *)
Record sys := mk_sys {
  kern : world;
  trace : list event
}.

Definition log (w : world) (s : sys) (e : event) : sys :=
  {| kern := w; trace := trace s ++ [e] |}.

Definition sys_open (path : cstring) (flags : Z) (s : sys) : Z * sys :=
  let '(ret, w) := host_open path flags (kern s) in
  (ret, log w s (ev_open path flags ret)).

Definition sys_close (fd : Z) (s : sys) : Z * sys :=
  let '(ret, w) := host_close fd (kern s) in
  (ret, log w s (ev_close fd ret)).

Definition sys_ioctl (fd : Z) (request : ioctl_request) (s : sys) : Z * sys :=
  let '(ret, w) := host_ioctl fd request (kern s) in
  (ret, log w s (ev_ioctl fd request ret)).

Definition sys_ioctl_info (fd : Z) (s : sys) : Z * snd_pcm_info * sys :=
  let '(ret, native_info, w) := host_ioctl_info fd (kern s) in
  (ret, native_info, log w s (ev_ioctl fd SNDRV_PCM_IOCTL_INFO ret)).

Definition sys_ioctl_readi (fd : Z) (transfer : snd_xferi) (s : sys)
  : Z * snd_xferi * sys :=
  let '(ret, transfer, w) := host_ioctl_readi fd transfer (kern s) in
  (ret, transfer, log w s (ev_ioctl fd SNDRV_PCM_IOCTL_READI_FRAMES ret)).

Definition sys_opendir (path : cstring) (s : sys)
  : option (list cstring) * sys :=
  let '(dir, w) := host_opendir path (kern s) in
  (dir, log w s (ev_opendir path
                 match dir with Some _ => true | None => false end)).

Definition sys_closedir (s : sys) : sys := log (kern s) s ev_closedir.

Definition sys_alloc (s : sys) : bool * sys :=
  let '(ok, w) := host_alloc (kern s) in
  (ok, {| kern := w; trace := trace s |}).

(** ** PCM *)

(** [class pcm_impl]: the descriptor. *)
Record pcm_impl := mk_pcm_impl { fd : Z }.

(** [pcm_impl::open_by_path] *)
Definition open_by_path (self : pcm_impl) (path : cstring)
  (non_blocking : bool) (s : sys) : result * pcm_impl * sys :=
  let s := if negb (fd self =? invalid_fd)
           then snd (sys_close (fd self) s)
           else s in
  let '(new_fd, s) :=
    sys_open path (if non_blocking then Z.lor O_RDWR O_NONBLOCK else O_RDWR) s
  in
  if new_fd <? 0
  then (mk_result (errno (kern s)), mk_pcm_impl invalid_fd, s)
  else (mk_result 0, mk_pcm_impl new_fd, s).

(** [lazy_init]: [None] is the null pointer. *)
Definition lazy_init (impl : option pcm_impl) (s : sys)
  : option pcm_impl * sys :=
  match impl with
  | Some i => (Some i, s)
  | None =>
      let '(ok, s) := sys_alloc s in
      (if ok then Some (mk_pcm_impl invalid_fd) else None, s)
  end.

(** [class pcm]: the pointer [self]. *)
Record pcm := mk_pcm { self : option pcm_impl }.

(** [pcm::pcm()] *)
Definition pcm_new : pcm := mk_pcm None.

(** [pcm::pcm(pcm&& other)]: the new handle and what is left of [other]. *)
Definition pcm_move (other : pcm) : pcm * pcm :=
  (mk_pcm (self other), mk_pcm None).

(** [pcm::close] *)
Definition close (p : pcm) (s : sys) : Z * pcm * sys :=
  match self p with
  | None => (0, p, s)
  | Some impl =>
      if negb (fd impl =? invalid_fd) then
        let '(ret, s) := sys_close (fd impl) s in
        let p := mk_pcm (Some (mk_pcm_impl invalid_fd)) in
        if ret =? -1 then (errno (kern s), p, s) else (0, p, s)
      else (0, p, s)
  end.

(** [pcm::~pcm]: [close()], then [delete self]. *)
Definition pcm_delete (p : pcm) (s : sys) : sys :=
  let '(_, _, s) := close p s in s.

(** [pcm::get_file_descriptor] *)
Definition get_file_descriptor (p : pcm) : Z :=
  match self p with
  | Some impl => fd impl
  | None => invalid_fd
  end.

(** [pcm::is_open] *)
Definition is_open (p : pcm) : bool :=
  match self p with
  | None => false
  | Some impl => negb (fd impl =? invalid_fd)
  end.

(** [pcm::prepare] *)
Definition prepare (p : pcm) (s : sys) : result * sys :=
  match self p with
  | None => (mk_result ENOENT, s)
  | Some impl =>
      let '(err, s) := sys_ioctl (fd impl) SNDRV_PCM_IOCTL_PREPARE s in
      if err <? 0 then (mk_result (errno (kern s)), s)
      else (mk_result 0, s)
  end.

(** [pcm::setup]; the configuration is not looked at. *)
Definition setup (p : pcm) : result := mk_result EPROTO.

(** [pcm::start] *)
Definition start (p : pcm) (s : sys) : result * sys :=
  match self p with
  | None => (mk_result ENOENT, s)
  | Some impl =>
      let '(err, s) := sys_ioctl (fd impl) SNDRV_PCM_IOCTL_START s in
      if err <? 0 then (mk_result (errno (kern s)), s)
      else (mk_result 0, s)
  end.

(** [pcm::drop] *)
Definition drop (p : pcm) (s : sys) : result * sys :=
  match self p with
  | None => (mk_result ENOENT, s)
  | Some impl =>
      let '(err, s) := sys_ioctl (fd impl) SNDRV_PCM_IOCTL_DROP s in
      if err <? 0 then (mk_result (errno (kern s)), s)
      else (mk_result 0, s)
  end.

(** [pcm::get_info] *)
Definition get_info (p : pcm) (s : sys) : generic_result pcm_info * sys :=
  match self p with
  | None => (mk_generic_result ENOENT pcm_info_init, s)
  | Some impl =>
      let '(err, native_info, s) := sys_ioctl_info (fd impl) s in
      if negb (err =? 0)
      then (mk_generic_result (errno (kern s)) pcm_info_init, s)
      else (mk_generic_result 0 (to_tinyalsa_info native_info), s)
  end.

(** [%lu] *)
Definition print_lu (n : N) : cstring :=
  cstr (NilEmpty.string_of_uint (N.to_uint n)).

(** [snprintf(path, sizeof(path), "/dev/snd/pcmC%luD%lu<suffix>",
    (unsigned long) card, (unsigned long) device)] with [char path[256]]:
    both numbers are converted to the unsigned type, and at most 255
    characters are kept. *)
Definition pcm_path (card device : N) (suffix : ascii) : cstring :=
  firstn 255
    (cstr "/dev/snd/pcmC" ++ print_lu (to_size_type card)
     ++ cstr "D" ++ print_lu (to_size_type device) ++ [suffix]).

(** [pcm::open_capture_device] *)
Definition open_capture_device (p : pcm) (card device : N)
  (non_blocking : bool) (s : sys) : result * pcm * sys :=
  let '(impl, s) := lazy_init (self p) s in
  match impl with
  | None => (mk_result ENOMEM, mk_pcm None, s)
  | Some impl =>
      let path := pcm_path card device "c" in
      let '(r, impl, s) := open_by_path impl path non_blocking s in
      (r, mk_pcm (Some impl), s)
  end.

(** [pcm::open_playback_device] *)
Definition open_playback_device (p : pcm) (card device : N)
  (non_blocking : bool) (s : sys) : result * pcm * sys :=
  let '(impl, s) := lazy_init (self p) s in
  match impl with
  | None => (mk_result ENOMEM, mk_pcm None, s)
  | Some impl =>
      let path := pcm_path card device "p" in
      let '(r, impl, s) := open_by_path impl path non_blocking s in
      (r, mk_pcm (Some impl), s)
  end.

(** Modelled from the spec: the default of the [non_blocking] argument is
    declared in [tinyalsa.hpp]; the specification gives
    [open_capture_device(card, device, non_blocking=false)]. *)
Definition non_blocking_default : bool := false.

(** ** Interleaved reader *)

(** [interleaved_pcm_reader::open] *)
Definition interleaved_pcm_reader_open
  : pcm -> N -> N -> bool -> sys -> result * pcm * sys :=
  open_capture_device.

(** [interleaved_pcm_reader::read_unformatted] *)
Definition read_unformatted (p : pcm) (frames : Z) (frame_count : N)
  (s : sys) : generic_result N * sys :=
  let transfer :=
    {| xf_result := 0; xf_buf := frames;
       xf_frames := to_size_type frame_count |} in
  let '(err, transfer, s) :=
    sys_ioctl_readi (get_file_descriptor p) transfer s in
  if negb (err =? 0) then (mk_generic_result EINVAL 0%N, s)
  else (mk_generic_result 0 (size_type_of_Z (xf_result transfer)), s).

(** ** PCM list *)

(** [class pcm_list]: [self] points to the [pcm_list_impl], which holds
    [info_vec]. *)
Record pcm_list := mk_pcm_list { list_self : option (list pcm_info) }.

(** [info_vec.emplace_back(info)]: [None] when it throws. *)
Definition emplace_back (info_vec : list pcm_info) (info : pcm_info)
  (s : sys) : option (list pcm_info) * sys :=
  let '(ok, s) := sys_alloc s in
  (if ok then Some (info_vec ++ [info]) else None, s).

(** The loop of the constructor, over the entries [readdir] still has to
    deliver.  Leaving an iteration destroys [p]. *)
Fixpoint scan_entries (entries : list cstring) (info_vec : list pcm_info)
  (s : sys) : list pcm_info * sys :=
  match entries with
  | [] => (info_vec, s)
  | d_name :: entries =>
      let name := parsed_name.make d_name in
      if negb (parsed_name.valid name) then scan_entries entries info_vec s
      else
        let p := pcm_new in
        let '(open_result, p, s) :=
          if parsed_name.is_capture name
          then open_capture_device p (parsed_name.card name)
                 (parsed_name.device name) non_blocking_default s
          else open_playback_device p (parsed_name.card name)
                 (parsed_name.device name) non_blocking_default s in
        if failed open_result
        then scan_entries entries info_vec (pcm_delete p s)
        else
          let '(info_result, s) := get_info p s in
          if gr_failed info_result
          then scan_entries entries info_vec (pcm_delete p s)
          else
            let '(pushed, s) := emplace_back info_vec (unwrap info_result) s in
            match pushed with
            | None => (info_vec, pcm_delete p s)
            | Some info_vec => scan_entries entries info_vec (pcm_delete p s)
            end
  end.

(** [pcm_list::pcm_list()] *)
Definition pcm_list_new (s : sys) : pcm_list * sys :=
  let '(ok, s) := sys_alloc s in
  if negb ok then (mk_pcm_list None, s)
  else
    let '(snd_dir, s) := sys_opendir (cstr "/dev/snd") s in
    match snd_dir with
    | None => (mk_pcm_list (Some []), s)
    | Some entries =>
        let '(info_vec, s) := scan_entries entries [] s in
        (mk_pcm_list (Some info_vec), sys_closedir s)
    end.

(** [pcm_list::data] as the sequence it points to, and [pcm_list::size]. *)
Definition data (l : pcm_list) : list pcm_info :=
  match list_self l with
  | Some info_vec => info_vec
  | None => []
  end.

Definition size (l : pcm_list) : N :=
  match list_self l with
  | Some info_vec => N.of_nat (length info_vec)
  | None => 0%N
  end.

End WithHost.

(** ** The grammar of device names *)

Definition pcmC : cstring := cstr "pcmC".

Definition digits (l : cstring) : Prop :=
  Forall (fun c => parsed_name.is_dec c = true) l.

Definition digit_value (c : ascii) : N := (N_of_ascii c - 48)%N.

(** The base-10 value of a digit span, read left to right. *)
Definition decimal_value (l : cstring) : N :=
  fold_left (fun acc c => (acc * 10 + digit_value c)%N) l 0%N.

Definition direction (dir : ascii) : Prop := dir = "c"%char \/ dir = "p"%char.

(** The grammar as the specification words it: both digit spans hold one
    digit or more, and the numbers are the base-10 values of the spans. *)
Definition device_name_grammar (name : cstring) (c d : N) (capture : bool)
  : Prop :=
  exists cs ds dir,
    name = pcmC ++ cs ++ "D"%char :: ds ++ [dir]
    /\ cs <> [] /\ ds <> [] /\ digits cs /\ digits ds /\ direction dir
    /\ c = decimal_value cs /\ d = decimal_value ds
    /\ capture = (dir =? "c")%char.

(** What the parser accepts: either digit span may be empty (the number is
    then zero) and the numbers are reduced to the width of [size_type]. *)
Definition accepted_name `{Target} (name : cstring) (c d : N) (capture : bool)
  : Prop :=
  exists cs ds dir,
    name = pcmC ++ cs ++ "D"%char :: ds ++ [dir]
    /\ digits cs /\ digits ds /\ direction dir
    /\ c = to_size_type (decimal_value cs)
    /\ d = to_size_type (decimal_value ds)
    /\ capture = (dir =? "c")%char.

(** The digit loop over a span, on the span itself. *)
Fixpoint scan_digits `{Target} (seg : cstring) (acc : N) : bool * N :=
  match seg with
  | [] => (true, acc)
  | c :: seg' =>
      if parsed_name.is_dec c then
        scan_digits seg'
          (to_size_type (to_size_type (acc * 10) + parsed_name.to_dec c))
      else (false, acc)
  end.

(** ** The parser on a name of the accepted shape *)

Definition parse_on_shape `{Target} (cs ds : cstring) (dir : ascii)
  (self : parsed_name.t) : bool * parsed_name.t :=
  if (negb (dir =? "c")%char && negb (dir =? "p")%char)%bool
  then (false, self)
  else
    let cap := (dir =? "c")%char in
    let '(ok, c) := scan_digits cs 0%N in
    if negb ok
    then (false, parsed_name.mk (parsed_name.valid self) c 0 cap)
    else
      let '(ok, d) := scan_digits ds 0%N in
      if negb ok
      then (false, parsed_name.mk (parsed_name.valid self) c d cap)
      else (true, parsed_name.mk (parsed_name.valid self) c d cap).

(** One step of [decimal_value]. *)
Definition value_step (acc : N) (c : ascii) : N :=
  (acc * 10 + digit_value c)%N.

(** The file name of a synthesized path. *)
Definition pcm_file_name `{Target} (card device : N) (suffix : ascii)
  : cstring :=
  pcmC ++ print_lu (to_size_type card)
  ++ "D"%char :: print_lu (to_size_type device) ++ [suffix].

(** ** Descriptors a trace leaves open *)

Fixpoint remove_one (x : Z) (l : list Z) : list Z :=
  match l with
  | [] => []
  | y :: l' => if x =? y then l' else y :: remove_one x l'
  end.

(** A descriptor is live from the [open] that returned it to the [close]
    issued on it, whatever that [close] answers. *)
Definition live_step (live : list Z) (e : event) : list Z :=
  match e with
  | ev_open _ _ ret => if ret <? 0 then live else ret :: live
  | ev_close fd _ => remove_one fd live
  | _ => live
  end.

Definition live_fds (t : list event) : list Z := fold_left live_step t [].

(** The flags [open_by_path] passes to [open]. *)
Definition open_flags (non_blocking : bool) : Z :=
  if non_blocking then Z.lor O_RDWR O_NONBLOCK else O_RDWR.

(** ** The operations of a handle *)

Inductive pcm_op :=
| op_open_capture_device (card device : N) (non_blocking : bool)
| op_open_playback_device (card device : N) (non_blocking : bool)
| op_close
| op_prepare
| op_setup
| op_start
| op_drop
| op_get_info
| op_read_unformatted (frames : Z) (frame_count : N).

Section Operations.

Context `{Target} `{Host}.

(** What [prepare], [start] and [drop] have in common: one control call
    without argument. *)
Definition control (request : ioctl_request) (p : pcm) (s : sys)
  : result * sys :=
  match self p with
  | None => (mk_result ENOENT, s)
  | Some impl =>
      let '(err, s) := sys_ioctl (fd impl) request s in
      if err <? 0 then (mk_result (errno (kern s)), s)
      else (mk_result 0, s)
  end.

(** What [open_capture_device] and [open_playback_device] have in
    common. *)
Definition open_device (suffix : ascii) (p : pcm) (card device : N)
  (non_blocking : bool) (s : sys) : result * pcm * sys :=
  let '(impl, s) := lazy_init (self p) s in
  match impl with
  | None => (mk_result ENOMEM, mk_pcm None, s)
  | Some impl =>
      let '(r, impl, s) :=
        open_by_path impl (pcm_path card device suffix) non_blocking s in
      (r, mk_pcm (Some impl), s)
  end.

(** One operation on a handle: the error code it returns, the handle and
    the system afterwards. *)
Definition run_op (op : pcm_op) (p : pcm) (s : sys) : Z * pcm * sys :=
  match op with
  | op_open_capture_device card device non_blocking =>
      let '(r, p, s) := open_capture_device p card device non_blocking s in
      (error r, p, s)
  | op_open_playback_device card device non_blocking =>
      let '(r, p, s) := open_playback_device p card device non_blocking s in
      (error r, p, s)
  | op_close => close p s
  | op_prepare => let '(r, s) := prepare p s in (error r, p, s)
  | op_setup => (error (setup p), p, s)
  | op_start => let '(r, s) := start p s in (error r, p, s)
  | op_drop => let '(r, s) := drop p s in (error r, p, s)
  | op_get_info => let '(r, s) := get_info p s in (gr_error r, p, s)
  | op_read_unformatted frames frame_count =>
      let '(r, s) := read_unformatted p frames frame_count s in
      (gr_error r, p, s)
  end.

Fixpoint run_ops (ops : list pcm_op) (p : pcm) (s : sys) : pcm * sys :=
  match ops with
  | [] => (p, s)
  | op :: ops => let '(_, p, s) := run_op op p s in run_ops ops p s
  end.

(** The descriptors the handle wraps: one when open, none otherwise. *)
Definition wrapped (p : pcm) : list Z :=
  if is_open p then [get_file_descriptor p] else [].

(** ** Enumeration, as the specification words it *)

(** Opening the device a parsed name implies: capture or playback by the
    parsed direction, in blocking mode, on a handle of its own. *)
Definition open_implied (name : parsed_name.t) (s : sys)
  : result * pcm * sys :=
  if parsed_name.is_capture name
  then open_capture_device pcm_new (parsed_name.card name)
         (parsed_name.device name) false s
  else open_playback_device pcm_new (parsed_name.card name)
         (parsed_name.device name) false s.

(** What one directory entry contributes: its snapshot when the parser
    accepts the name, the implied device opens and [get_info] succeeds,
    nothing otherwise; the second component says whether the append was
    refused for lack of memory.  The probing handle is discarded. *)
Definition candidate (d_name : cstring) (s : sys)
  : option pcm_info * bool * sys :=
  let name := parsed_name.make d_name in
  if parsed_name.valid name then
    let '(opened, p, s) := open_implied name s in
    if failed opened then (None, false, pcm_delete p s)
    else
      let '(info, s) := get_info p s in
      if gr_failed info then (None, false, pcm_delete p s)
      else
        let '(ok, s) := sys_alloc s in
        (Some (gr_value info), negb ok, pcm_delete p s)
  else (None, false, s).

(** The outcome of every entry, in scan order, each probed in the state
    the one before it left. *)
Fixpoint outcomes (entries : list cstring) (s : sys)
  : list (option pcm_info * bool) :=
  match entries with
  | [] => []
  | d_name :: entries =>
      let '(snapshot, refused, s) := candidate d_name s in
      (snapshot, refused) :: outcomes entries s
  end.

(** The outcomes before the first refused append. *)
Fixpoint until_refused (l : list (option pcm_info * bool))
  : list (option pcm_info * bool) :=
  match l with
  | [] => []
  | (snapshot, refused) :: l =>
      if refused then [] else (snapshot, refused) :: until_refused l
  end.

(** The snapshots among outcomes, in their order. *)
Definition snapshots (l : list (option pcm_info * bool)) : list pcm_info :=
  flat_map (fun o => match fst o with Some info => [info] | None => [] end) l.

(** One enumeration pass, as the specification words it: the snapshots of
    the qualifying entries, in scan order, up to the first append that is
    refused. *)
Definition enumeration (entries : list cstring) (s : sys) : list pcm_info :=
  snapshots (until_refused (outcomes entries s)).

End Operations.

(** ** A small host, for concrete runs

    Devices are the paths listed in [t_devices]; descriptors are handed
    out in increasing order; every call on a descriptor that is not open
    fails with [EBADF]; a read delivers [t_short] frames at most; the
    allocator serves [t_heap] requests. *)

Definition EBADF : Z := 9.

Record toy_world := {
  t_errno : Z;
  t_devices : list cstring;
  t_dir : option (list cstring);
  t_open : list Z;
  t_next : Z;
  t_heap : nat;
  t_short : N
}.

Definition cstring_eqb (a b : cstring) : bool :=
  if list_eq_dec Ascii.ascii_dec a b then true else false.

Definition is_open_fd (fd : Z) (w : toy_world) : bool :=
  existsb (Z.eqb fd) (t_open w).

Definition toy_fail (e : Z) (w : toy_world) : toy_world :=
  {| t_errno := e; t_devices := t_devices w; t_dir := t_dir w;
     t_open := t_open w; t_next := t_next w; t_heap := t_heap w;
     t_short := t_short w |}.

Definition toy_open (path : cstring) (flags : Z) (w : toy_world)
  : Z * toy_world :=
  if existsb (cstring_eqb path) (t_devices w)
  then (t_next w,
        {| t_errno := t_errno w; t_devices := t_devices w; t_dir := t_dir w;
           t_open := t_next w :: t_open w; t_next := t_next w + 1;
           t_heap := t_heap w; t_short := t_short w |})
  else (-1, toy_fail ENOENT w).

Definition toy_close (fd : Z) (w : toy_world) : Z * toy_world :=
  if is_open_fd fd w
  then (0,
        {| t_errno := t_errno w; t_devices := t_devices w; t_dir := t_dir w;
           t_open := remove_one fd (t_open w); t_next := t_next w;
           t_heap := t_heap w; t_short := t_short w |})
  else (-1, toy_fail EBADF w).

Definition toy_ioctl (fd : Z) (request : ioctl_request) (w : toy_world)
  : Z * toy_world :=
  if is_open_fd fd w then (0, w) else (-1, toy_fail EBADF w).

Definition toy_info (fd : Z) : snd_pcm_info :=
  {| n_device := fd; n_subdevice := 0; n_card := 0;
     n_id := cstr "toy"; n_name := cstr "toy pcm"; n_subname := cstr "sub";
     n_dev_class := SNDRV_PCM_CLASS_GENERIC;
     n_dev_subclass := SNDRV_PCM_SUBCLASS_GENERIC_MIX;
     n_subdevices_count := 1; n_subdevices_avail := 1 |}.

Definition toy_ioctl_info (fd : Z) (w : toy_world)
  : Z * snd_pcm_info * toy_world :=
  if is_open_fd fd w then (0, toy_info fd, w)
  else (-1, toy_info fd, toy_fail EBADF w).

Definition toy_ioctl_readi (fd : Z) (transfer : snd_xferi) (w : toy_world)
  : Z * snd_xferi * toy_world :=
  if is_open_fd fd w
  then (0,
        {| xf_result := Z.of_N (N.min (xf_frames transfer) (t_short w));
           xf_buf := xf_buf transfer; xf_frames := xf_frames transfer |},
        w)
  else (-1, transfer, toy_fail EBADF w).

Definition toy_opendir (path : cstring) (w : toy_world)
  : option (list cstring) * toy_world :=
  match t_dir w with
  | Some entries => (Some entries, w)
  | None => (None, toy_fail ENOENT w)
  end.

Definition toy_alloc (w : toy_world) : bool * toy_world :=
  match t_heap w with
  | O => (false, toy_fail ENOMEM w)
  | S n =>
      (true,
       {| t_errno := t_errno w; t_devices := t_devices w; t_dir := t_dir w;
          t_open := t_open w; t_next := t_next w; t_heap := n;
          t_short := t_short w |})
  end.

Definition toy_host : Host :=
  {| world := toy_world;
     errno := t_errno;
     host_open := toy_open;
     host_close := toy_close;
     host_ioctl := toy_ioctl;
     host_ioctl_info := toy_ioctl_info;
     host_ioctl_readi := toy_ioctl_readi;
     host_opendir := toy_opendir;
     host_alloc := toy_alloc |}.

(** A machine with the four entries of the specification's example, the
    three devices among them, memory for a hundred allocations and reads
    of three frames at most. *)
Definition toy_boot : toy_world :=
  {| t_errno := 0;
     t_devices := [cstr "/dev/snd/pcmC0D0c"; cstr "/dev/snd/pcmC0D0p";
                   cstr "/dev/snd/pcmC1D2p"];
     t_dir := Some [cstr "pcmC0D0c"; cstr "pcmC0D0p"; cstr "garbage.txt";
                    cstr "pcmC1D2p"];
     t_open := [];
     t_next := 3;
     t_heap := 100;
     t_short := 3 |}.

Definition toy_sys : @sys toy_host := @mk_sys toy_host toy_boot [].

(** The small host after a handle was opened on [pcmC0D0c], which gave it
    descriptor 3. *)
Definition toy_open_sys : @sys toy_host :=
  snd (@open_capture_device linux64 toy_host pcm_new 0 0 false toy_sys).

(** ** Further notions for the handle and the list *)

(** The direction character of a path. *)
Definition direction_suffix (capture : bool) : ascii :=
  if capture then "c"%char else "p"%char.

Section Probing.

Context `{Target} `{Host}.

(** [open_capture_device] or [open_playback_device]. *)
Definition open_direction (capture : bool)
  : pcm -> N -> N -> bool -> sys -> result * pcm * sys :=
  if capture then open_capture_device else open_playback_device.

(** The entries of a directory whose name the parser accepts. *)
Definition accepted_entries (entries : list cstring) : list cstring :=
  filter (fun d_name => parsed_name.valid (parsed_name.make d_name)) entries.

(** The path of the device that the name of an entry implies. *)
Definition implied_path (d_name : cstring) : cstring :=
  let name := parsed_name.make d_name in
  pcm_path (parsed_name.card name) (parsed_name.device name)
    (direction_suffix (parsed_name.is_capture name)).

(** The calls a scan of [entries] may issue: a blocking [open] of the
    path implied by an accepted entry, the [INFO] control call, and
    [close]. *)
Definition probe_event (entries : list cstring) (e : event) : Prop :=
  match e with
  | ev_open path flags _ =>
      flags = O_RDWR
      /\ exists d_name,
           In d_name entries
           /\ parsed_name.valid (parsed_name.make d_name) = true
           /\ path = implied_path d_name
  | ev_close _ _ => True
  | ev_ioctl _ request _ => request = SNDRV_PCM_IOCTL_INFO
  | ev_opendir _ _ => False
  | ev_closedir => False
  end.

(** From [s] to [s'] the code issued calls that all satisfy [P], and
    nothing else. *)
Definition issues (P : event -> Prop) (s s' : sys) : Prop :=
  exists delta, trace s' = trace s ++ delta /\ Forall P delta.

End Probing.

(** What [memcpy_min dst src] must be: as long as [dst], the same as
    [src] on the bytes copied, the same as [dst] on the others. *)
Definition copied_into (dst src out : list ascii) : Prop :=
  let n := Nat.min (length dst) (length src) in
  length out = length dst
  /\ firstn n out = firstn n src
  /\ skipn n out = skipn n dst.

(** The small host with no memory left. *)
Definition toy_exhausted_sys : @sys toy_host :=
  @mk_sys toy_host
    {| t_errno := 0; t_devices := t_devices toy_boot; t_dir := t_dir toy_boot;
       t_open := []; t_next := 3; t_heap := 0; t_short := 3 |} [].

(** The small host with a directory that holds no PCM name. *)
Definition toy_plain_sys : @sys toy_host :=
  @mk_sys toy_host
    {| t_errno := 0; t_devices := t_devices toy_boot;
       t_dir := Some [cstr "controlC0"; cstr "timer"; cstr "pcmC0D0"];
       t_open := []; t_next := 3; t_heap := 100; t_short := 3 |} [].

(** ** Lemmas on strings and indexes *)

Lemma char_at_app (pre rest : cstring) (i : nat) :
  char_at (pre ++ rest) (length pre + i) = char_at rest i.
Proof. unfold char_at. apply app_nth2_plus. Qed.

Lemma char_at_app0 (pre rest : cstring) :
  char_at (pre ++ rest) (length pre) = char_at rest 0.
Proof. rewrite <- (Nat.add_0_r (length pre)) at 1. apply char_at_app. Qed.

Lemma snoc_assoc {A} (pre : list A) (a : A) (rest : list A) :
  pre ++ a :: rest = (pre ++ [a]) ++ rest.
Proof. rewrite <- app_assoc. reflexivity. Qed.

Lemma find_D_miss (rest pre : cstring) (fallback : nat) :
  (forall c, In c rest -> c <> "D"%char) ->
  parsed_name.find_D (pre ++ rest) (length pre) (length rest) fallback
  = fallback.
Proof.
  revert pre. induction rest as [|a rest IH]; intros pre Hno; simpl.
  - reflexivity.
  - rewrite char_at_app0. cbn [char_at nth].
    destruct (Ascii.eqb_spec a "D") as [->|_].
    + exfalso. apply (Hno "D"%char); [left|]; reflexivity.
    + rewrite snoc_assoc.
      replace (S (length pre)) with (length (pre ++ [a]))
        by (rewrite length_app; simpl; lia).
      apply IH. intros c Hc. apply Hno. right. exact Hc.
Qed.

Lemma find_D_hit (cs pre tl : cstring) (extra fallback : nat) :
  (forall c, In c cs -> c <> "D"%char) ->
  parsed_name.find_D (pre ++ cs ++ "D"%char :: tl) (length pre)
    (length cs + S extra) fallback
  = (length pre + length cs)%nat.
Proof.
  revert pre. induction cs as [|a cs IH]; intros pre Hno; simpl.
  - rewrite char_at_app0. cbn [char_at nth]. simpl. lia.
  - rewrite char_at_app0. cbn [char_at nth].
    destruct (Ascii.eqb_spec a "D") as [->|_].
    + exfalso. apply (Hno "D"%char); [left|]; reflexivity.
    + rewrite (snoc_assoc pre a).
      replace (S (length pre)) with (length (pre ++ [a]))
        by (rewrite length_app; simpl; lia).
      rewrite IH by (intros c Hc; apply Hno; right; exact Hc).
      rewrite length_app. simpl. lia.
Qed.

Lemma split_at_D (rest : cstring) :
  (forall c, In c rest -> c <> "D"%char)
  \/ exists cs tl, rest = cs ++ "D"%char :: tl
                   /\ forall c, In c cs -> c <> "D"%char.
Proof.
  induction rest as [|a rest IH].
  - left. intros c [].
  - destruct (Ascii.eqb_spec a "D") as [->|Hne].
    + right. exists [], rest. split; [reflexivity|]. intros c [].
    + destruct IH as [Hno | (cs & tl & -> & Hno)].
      * left. intros c [<-|Hc]; [exact Hne | apply Hno, Hc].
      * right. exists (a :: cs), tl. split; [reflexivity|].
        intros c [<-|Hc]; [exact Hne | apply Hno, Hc].
Qed.

Lemma parse_number_seg `{Target} (seg pre post : cstring) (acc : N) :
  parsed_name.parse_number (pre ++ seg ++ post) (length pre) (length seg) acc
  = scan_digits seg acc.
Proof.
  revert pre acc. induction seg as [|a seg IH]; intros pre acc; simpl.
  - reflexivity.
  - rewrite char_at_app0. cbn [char_at nth].
    destruct (parsed_name.is_dec a); [|reflexivity].
    rewrite (snoc_assoc pre a).
    replace (S (length pre)) with (length (pre ++ [a]))
      by (rewrite length_app; simpl; lia).
    apply IH.
Qed.

(** ** Lemmas on digits and wrap-around *)

Lemma is_dec_range (c : ascii) :
  parsed_name.is_dec c = true <-> (48 <= N_of_ascii c <= 57)%N.
Proof.
  unfold parsed_name.is_dec, Ascii.leb, Ascii.compare.
  change (N_of_ascii "0") with 48%N. change (N_of_ascii "9") with 57%N.
  rewrite andb_true_iff.
  destruct (N.compare_spec 48 (N_of_ascii c));
    destruct (N.compare_spec (N_of_ascii c) 57);
    split; intros; try lia; try (split; reflexivity);
    destruct H1; discriminate.
Qed.

Lemma is_dec_not_D (c : ascii) : parsed_name.is_dec c = true -> c <> "D"%char.
Proof. intros Hd ->. vm_compute in Hd. discriminate. Qed.

Lemma digits_no_D (l : cstring) :
  digits l -> forall c, In c l -> c <> "D"%char.
Proof.
  intros Hd c Hc. apply is_dec_not_D.
  unfold digits in Hd. rewrite Forall_forall in Hd. apply Hd, Hc.
Qed.

Lemma to_size_type_idem `{Target} (x : N) :
  to_size_type (to_size_type x) = to_size_type x.
Proof. unfold to_size_type. apply N.Div0.mod_mod. Qed.

Lemma to_dec_digit `{Target} (c : ascii) :
  parsed_name.is_dec c = true ->
  parsed_name.to_dec c = to_size_type (digit_value c).
Proof.
  intros Hd. apply is_dec_range in Hd.
  unfold parsed_name.to_dec, size_type_of_Z, to_size_type, digit_value.
  change (Z.of_N (N_of_ascii "0")) with 48.
  replace (Z.of_N (N_of_ascii c) - 48) with (Z.of_N (N_of_ascii c - 48))
    by lia.
  change 2 with (Z.of_N 2) at 1.
  rewrite <- N2Z.inj_pow, <- N2Z.inj_mod, N2Z.id. reflexivity.
Qed.

Lemma accumulate_wrap `{Target} (acc : N) (c : ascii) :
  parsed_name.is_dec c = true ->
  to_size_type (to_size_type (acc * 10) + parsed_name.to_dec c)
  = to_size_type (acc * 10 + digit_value c).
Proof.
  intros Hd. rewrite (to_dec_digit c Hd). unfold to_size_type.
  rewrite <- N.Div0.add_mod. reflexivity.
Qed.

Lemma fold_value_wrap `{Target} (seg : cstring) (a b : N) :
  to_size_type a = to_size_type b ->
  to_size_type
    (fold_left (fun acc c => (acc * 10 + digit_value c)%N) seg a)
  = to_size_type
      (fold_left (fun acc c => (acc * 10 + digit_value c)%N) seg b).
Proof.
  revert a b. induction seg as [|c seg IH]; intros a b Hab; simpl.
  - exact Hab.
  - apply IH. unfold to_size_type in *.
    rewrite (N.Div0.add_mod (a * 10)), (N.Div0.add_mod (b * 10)).
    rewrite (N.Div0.mul_mod a), (N.Div0.mul_mod b), Hab. reflexivity.
Qed.

(** The digit loop succeeds exactly on digit spans, and then leaves the
    base-10 value of the span reduced to the width of [size_type]. *)
Lemma scan_digits_ok `{Target} (seg : cstring) (acc : N) :
  fst (scan_digits seg acc) = true <-> digits seg.
Proof.
  revert acc. induction seg as [|c seg IH]; intros acc; simpl.
  - split; [constructor | reflexivity].
  - destruct (parsed_name.is_dec c) eqn:Hc.
    + rewrite IH. split; [intros Hs; constructor; assumption|].
      intros Hs. inversion Hs. assumption.
    + simpl. split; [discriminate|]. intros Hs. inversion Hs. congruence.
Qed.

Lemma scan_digits_value `{Target} (seg : cstring) (acc : N) :
  digits seg -> to_size_type acc = acc ->
  snd (scan_digits seg acc)
  = to_size_type
      (fold_left (fun a c => (a * 10 + digit_value c)%N) seg acc).
Proof.
  revert acc. induction seg as [|c seg IH]; intros acc Hd Hacc; simpl.
  - symmetry. exact Hacc.
  - inversion Hd as [|c' seg' Hc Hseg]; subst. rewrite Hc.
    rewrite accumulate_wrap by exact Hc.
    rewrite IH by (try assumption; apply to_size_type_idem).
    apply fold_value_wrap. apply to_size_type_idem.
Qed.

Lemma to_size_type_0 `{Target} : to_size_type 0 = 0%N.
Proof. unfold to_size_type. apply N.Div0.mod_0_l. Qed.

Lemma parse_shape `{Target} (cs ds : cstring) (dir : ascii)
  (self : parsed_name.t) :
  (forall c, In c cs -> c <> "D"%char) ->
  parsed_name.parse (pcmC ++ cs ++ "D"%char :: ds ++ [dir]) self
  = parse_on_shape cs ds dir self.
Proof.
  intros Hno. unfold parsed_name.parse, parse_on_shape.
  set (name := pcmC ++ cs ++ "D"%char :: ds ++ [dir]).
  assert (Hlen : strlen name = (length cs + S (S (length ds)) + 4)%nat).
  { unfold strlen, name. repeat (rewrite length_app; simpl). lia. }
  rewrite Hlen.
  replace (length cs + S (S (length ds)) + 4 =? 0)%nat with false
    by (symmetry; apply Nat.eqb_neq; lia).
  change (char_at name 0) with "p"%char.
  change (char_at name 1) with "c"%char.
  change (char_at name 2) with "m"%char.
  change (char_at name 3) with "C"%char.
  cbn [Ascii.eqb Bool.eqb negb orb].
  replace (length cs + S (S (length ds)) + 4 - 4)%nat
    with (length cs + S (S (length ds)))%nat by lia.
  assert (Hd : parsed_name.find_D name 4 (length cs + S (S (length ds)))
                 (length cs + S (S (length ds)) + 4)
               = (4 + length cs)%nat).
  { unfold name. apply (find_D_hit cs pcmC). exact Hno. }
  rewrite Hd.
  replace (length cs + S (S (length ds)) + 4 <=? 4 + length cs)%nat
    with false by (symmetry; apply Nat.leb_gt; lia).
  assert (Hlast : char_at name (length cs + S (S (length ds)) + 4 - 1) = dir).
  { unfold name.
    replace (pcmC ++ cs ++ "D"%char :: ds ++ [dir])
      with ((pcmC ++ cs ++ "D"%char :: ds) ++ [dir])
      by (repeat rewrite <- app_assoc; reflexivity).
    replace (length cs + S (S (length ds)) + 4 - 1)%nat
      with (length (pcmC ++ cs ++ "D"%char :: ds))
      by (repeat (rewrite length_app; simpl); lia).
    rewrite char_at_app0. reflexivity. }
  rewrite Hlast.
  destruct (negb (dir =? "c")%char && negb (dir =? "p")%char)%bool;
    [reflexivity|].
  replace (4 + length cs - 4)%nat with (length cs) by lia.
  assert (Hc : parsed_name.parse_number name 4 (length cs) 0
               = scan_digits cs 0).
  { unfold name. apply (parse_number_seg cs pcmC). }
  rewrite Hc.
  replace (length cs + S (S (length ds)) + 4 - 1 - S (4 + length cs))%nat
    with (length ds) by lia.
  assert (Hdv : parsed_name.parse_number name (S (4 + length cs)) (length ds) 0
                = scan_digits ds 0).
  { unfold name.
    replace (pcmC ++ cs ++ "D"%char :: ds ++ [dir])
      with ((pcmC ++ cs ++ ["D"%char]) ++ ds ++ [dir])
      by (repeat rewrite <- app_assoc; reflexivity).
    replace (S (4 + length cs)) with (length (pcmC ++ cs ++ ["D"%char]))
      by (repeat (rewrite length_app; simpl); lia).
    apply parse_number_seg. }
  rewrite Hdv.
  destruct (scan_digits cs 0) as [ok1 c]. simpl.
  destruct ok1; simpl; [|reflexivity].
  destruct (scan_digits ds 0) as [ok2 d]. simpl.
  destruct ok2; reflexivity.
Qed.

Lemma prefix_pcmC (name : cstring) :
  (negb (char_at name 0 =? "p")%char
   || negb (char_at name 1 =? "c")%char
   || negb (char_at name 2 =? "m")%char
   || negb (char_at name 3 =? "C")%char)%bool = false ->
  exists rest, name = pcmC ++ rest.
Proof.
  intros Hp. repeat rewrite orb_false_iff in Hp.
  destruct Hp as [[[H0 H1] H2] H3].
  apply negb_false_iff, Ascii.eqb_eq in H0, H1, H2, H3.
  destruct name as [|a0 [|a1 [|a2 [|a3 rest]]]];
    cbn [char_at nth] in *; try discriminate.
  subst. exists rest. reflexivity.
Qed.

(** A name the parser accepts has the shape [pcmC cs D ds dir], where
    [cs] ends at the first ['D'] after the prefix. *)
Lemma parse_accepts_shape `{Target} (name : cstring) (self self' : parsed_name.t) :
  parsed_name.parse name self = (true, self') ->
  exists cs ds dir,
    name = pcmC ++ cs ++ "D"%char :: ds ++ [dir]
    /\ forall c, In c cs -> c <> "D"%char.
Proof.
  intros Hp.
  assert (Hpre : exists rest, name = pcmC ++ rest).
  { unfold parsed_name.parse in Hp.
    destruct (strlen name =? 0)%nat; [discriminate|].
    destruct (negb (char_at name 0 =? "p")%char
              || negb (char_at name 1 =? "c")%char
              || negb (char_at name 2 =? "m")%char
              || negb (char_at name 3 =? "C")%char)%bool eqn:Hpre;
      [discriminate|].
    apply prefix_pcmC. exact Hpre. }
  destruct Hpre as [rest ->].
  destruct (split_at_D rest) as [Hno | (cs & tl & -> & Hno)].
  - exfalso. unfold parsed_name.parse in Hp.
    destruct (strlen (pcmC ++ rest) =? 0)%nat; [discriminate|].
    destruct (negb _ || _ || _ || _)%bool; [discriminate|].
    replace (strlen (pcmC ++ rest) - 4)%nat with (length rest) in Hp
      by (unfold strlen; rewrite length_app; simpl; lia).
    rewrite (find_D_miss rest pcmC _ Hno) in Hp.
    rewrite Nat.leb_refl in Hp. discriminate.
  - destruct (exists_last (l := "D"%char :: tl)) as (front & dir & Hsnoc);
      [discriminate|].
    destruct front as [|d0 ds].
    + (* the separator is the last character *)
      exfalso. destruct tl as [|? [|? ?]]; try discriminate.
      unfold parsed_name.parse in Hp.
      set (name := pcmC ++ cs ++ ["D"%char]) in Hp.
      assert (Hlen : strlen name = (length cs + 1 + 4)%nat).
      { unfold strlen, name. repeat (rewrite length_app; simpl). lia. }
      rewrite Hlen in Hp.
      replace (length cs + 1 + 4 =? 0)%nat with false in Hp
        by (symmetry; apply Nat.eqb_neq; lia).
      destruct (negb _ || _ || _ || _)%bool; [discriminate|].
      replace (length cs + 1 + 4 - 4)%nat with (length cs + 1)%nat in Hp
        by lia.
      assert (Hd : parsed_name.find_D name 4 (length cs + 1)
                     (length cs + 1 + 4) = (4 + length cs)%nat).
      { unfold name. apply (find_D_hit cs pcmC [] 0). exact Hno. }
      rewrite Hd in Hp.
      replace (length cs + 1 + 4 <=? 4 + length cs)%nat with false in Hp
        by (symmetry; apply Nat.leb_gt; lia).
      assert (Hlast : char_at name (length cs + 1 + 4 - 1) = "D"%char).
      { unfold name. rewrite app_assoc.
        replace (length cs + 1 + 4 - 1)%nat with (length (pcmC ++ cs))
          by (rewrite length_app; simpl; lia).
        rewrite char_at_app0. reflexivity. }
      rewrite Hlast in Hp. cbn in Hp. discriminate.
    + simpl in Hsnoc. injection Hsnoc as <- ->.
      exists cs, ds, dir. split; [reflexivity | exact Hno].
Qed.

Lemma scan_digits_digits `{Target} (seg : cstring) :
  digits seg ->
  scan_digits seg 0%N = (true, to_size_type (decimal_value seg)).
Proof.
  intros Hd. rewrite (surjective_pairing (scan_digits seg 0%N)).
  f_equal.
  - apply scan_digits_ok. exact Hd.
  - apply scan_digits_value; [exact Hd | apply to_size_type_0].
Qed.

Lemma direction_check (dir : ascii) :
  (negb (dir =? "c")%char && negb (dir =? "p")%char)%bool = false
  <-> direction dir.
Proof.
  unfold direction.
  destruct (Ascii.eqb_spec dir "c"); destruct (Ascii.eqb_spec dir "p");
    simpl; split; intros; auto; try discriminate.
  destruct H as [?|?]; contradiction.
Qed.

(** ** The name parser: what it accepts *)

(** The parser accepts a name with given fields exactly when the name has
    the accepted shape with these numbers and direction. *)
Lemma make_accepted `{Target} (name : cstring) (c d : N) (k : bool) :
  parsed_name.make name = parsed_name.mk true c d k
  <-> accepted_name name c d k.
Proof.
  unfold parsed_name.make. split.
  - destruct (parsed_name.parse name parsed_name.init) as [ok self] eqn:Hp.
    intros Heq. injection Heq as -> Hc Hd Hk.
    destruct (parse_accepts_shape name _ _ Hp) as (cs & ds & dir & -> & Hno).
    rewrite (parse_shape cs ds dir _ Hno) in Hp.
    unfold parse_on_shape in Hp.
    destruct (negb (dir =? "c")%char && negb (dir =? "p")%char)%bool
      eqn:Hdir; [discriminate|].
    destruct (scan_digits cs 0%N) as [ok1 c1] eqn:Hcs.
    destruct ok1; [|discriminate]. cbn [negb] in Hp.
    destruct (scan_digits ds 0%N) as [ok2 d2] eqn:Hds.
    destruct ok2; [|discriminate]. cbn [negb] in Hp.
    injection Hp as <-. cbn in Hc, Hd, Hk. subst c d k.
    assert (Dcs : digits cs)
      by (apply (scan_digits_ok cs 0%N); rewrite Hcs; reflexivity).
    assert (Dds : digits ds)
      by (apply (scan_digits_ok ds 0%N); rewrite Hds; reflexivity).
    rewrite (scan_digits_digits cs Dcs) in Hcs.
    rewrite (scan_digits_digits ds Dds) in Hds.
    injection Hcs as <-. injection Hds as <-.
    exists cs, ds, dir. repeat split; try assumption.
    apply direction_check. exact Hdir.
  - intros (cs & ds & dir & -> & Dcs & Dds & Hdir & -> & -> & ->).
    rewrite (parse_shape cs ds dir _ (digits_no_D cs Dcs)).
    unfold parse_on_shape.
    apply direction_check in Hdir. rewrite Hdir.
    rewrite (scan_digits_digits cs Dcs), (scan_digits_digits ds Dds).
    reflexivity.
Qed.

(** C1, as the code has it: the parser accepts a name, leaving [c], [d]
    and [k] in the fields, exactly when the name is [pcmC], a possibly
    empty run of decimal digits, [D], a possibly empty run of decimal
    digits and one final [c] or [p]; [c] and [d] are the base-10 values
    of the two runs reduced modulo [2 ^ size_type_bits] (zero for an
    empty run) and [k] tells whether the final character is [c].
    Every other name is rejected. *)
Theorem parse_accepts_iff `{Target} (name : cstring) :
  (forall c d k,
     parsed_name.make name = parsed_name.mk true c d k
     <-> accepted_name name c d k)
  /\ (parsed_name.valid (parsed_name.make name) = false
      <-> ~ exists c d k, accepted_name name c d k).
Proof.
  split; [intros c d k; apply make_accepted|].
  split.
  - intros Hv (c & d & k & Hacc). apply make_accepted in Hacc.
    rewrite Hacc in Hv. discriminate.
  - intros Hno. destruct (parsed_name.make name) as [v c d k] eqn:Hm.
    destruct v; [|reflexivity].
    exfalso. apply Hno. exists c, d, k. apply make_accepted. exact Hm.
Qed.

(** C1, a run of the theorem: [pcmC2D1c] is of the accepted shape, so the
    parser accepts it with card 2, device 1, capture. *)
Lemma parse_accepts_iff_witness :
  @parsed_name.make linux64 (cstr "pcmC2D1c") = parsed_name.mk true 2 1 true.
Proof.
  apply (proj1 (@parse_accepts_iff linux64 (cstr "pcmC2D1c"))).
  exists (cstr "2"), (cstr "1"), "c"%char.
  split; [reflexivity|].
  split; [repeat constructor|].
  split; [repeat constructor|].
  split; [left; reflexivity|].
  split; [reflexivity|].
  split; reflexivity.
Defined.

(** C1 as the specification words it fails twice over.  [pcmCDc] has no
    digit at all and is accepted (as card 0, device 0), although no name
    of the grammar equals it; and [pcmC18446744073709551616D0c] is a name
    of the grammar with card 2^64, for which a 64-bit [size_type] is left
    with card 0. *)
Lemma parse_grammar_counterexample :
  (parsed_name.valid (@parsed_name.make linux64 (cstr "pcmCDc")) = true
   /\ ~ exists c d k, device_name_grammar (cstr "pcmCDc") c d k)
  /\ (device_name_grammar (cstr "pcmC18446744073709551616D0c")
        18446744073709551616 0 true
      /\ @parsed_name.make linux64 (cstr "pcmC18446744073709551616D0c")
         = parsed_name.mk true 0 0 true).
Proof.
  split; [split|split].
  - vm_compute. reflexivity.
  - intros (c & d & k & cs & ds & dir & Heq & Hcs & _ & Dcs & _).
    destruct cs as [|c0 cs]; [contradiction Hcs; reflexivity|].
    injection Heq as Hc0 _. inversion Dcs as [|? ? Hdec _]; subst c0.
    vm_compute in Hdec. discriminate.
  - exists (cstr "18446744073709551616"), (cstr "0"), "c"%char.
    split; [reflexivity|].
    split; [discriminate|].
    split; [discriminate|].
    split; [repeat constructor|].
    split; [repeat constructor|].
    split; [left; reflexivity|].
    split; [vm_compute; reflexivity|].
    split; reflexivity.
  - vm_compute. reflexivity.
Qed.

(** The names of the specification's grammar whose numbers fit
    [size_type] are accepted, with the numbers themselves. *)
Lemma grammar_names_accepted `{Target} (name : cstring) (c d : N) (k : bool) :
  device_name_grammar name c d k ->
  (c < 2 ^ size_type_bits)%N -> (d < 2 ^ size_type_bits)%N ->
  parsed_name.make name = parsed_name.mk true c d k.
Proof.
  intros (cs & ds & dir & -> & _ & _ & Dcs & Dds & Hdir & -> & -> & ->) Hc Hd.
  apply make_accepted.
  exists cs, ds, dir.
  split; [reflexivity|]. split; [exact Dcs|]. split; [exact Dds|].
  split; [exact Hdir|].
  split; [symmetry; unfold to_size_type; apply N.mod_small; exact Hc|].
  split; [symmetry; unfold to_size_type; apply N.mod_small; exact Hd|].
  reflexivity.
Qed.

(** ** Round trip of a synthesized path *)

Lemma to_size_type_small `{Target} (n : N) :
  (n < 2 ^ size_type_bits)%N -> to_size_type n = n.
Proof. intros Hn. unfold to_size_type. apply N.mod_small. exact Hn. Qed.

Lemma small_fits `{Target} (n : N) :
  (2 <= size_type_bits)%N -> (n < 4)%N -> to_size_type n = n.
Proof.
  intros Hb Hn. apply to_size_type_small.
  apply N.lt_le_trans with (2 ^ 2)%N; [exact Hn|].
  apply N.pow_le_mono_r; [discriminate | exact Hb].
Qed.

(** C4: on a target whose [size_type] has two bits or more, the path that
    [open_capture_device] synthesizes for card 2 and device 1 is
    [/dev/snd/pcmC2D1c]; it is the path the handle opens; and its file
    name [pcmC2D1c] is accepted by the parser, which recovers card 2,
    device 1 and capture. *)
Theorem capture_path_round_trip `{Target} `{Host} :
  (2 <= size_type_bits)%N ->
  pcm_path 2 1 "c" = cstr "/dev/snd/" ++ cstr "pcmC2D1c"
  /\ (forall impl non_blocking s,
        open_capture_device (mk_pcm (Some impl)) 2 1 non_blocking s
        = let '(r, impl, s) :=
            open_by_path impl (cstr "/dev/snd/" ++ cstr "pcmC2D1c")
              non_blocking s in
          (r, mk_pcm (Some impl), s))
  /\ parsed_name.make (cstr "pcmC2D1c") = parsed_name.mk true 2 1 true.
Proof.
  intros Hb.
  assert (Hpath : pcm_path 2 1 "c" = cstr "/dev/snd/" ++ cstr "pcmC2D1c").
  { unfold pcm_path. rewrite !small_fits by (try exact Hb; reflexivity).
    reflexivity. }
  split; [exact Hpath|]. split.
  - intros impl non_blocking s.
    unfold open_capture_device, lazy_init. cbn [self].
    rewrite Hpath. reflexivity.
  - apply make_accepted.
    exists (cstr "2"), (cstr "1"), "c"%char.
    split; [reflexivity|].
    split; [repeat constructor|].
    split; [repeat constructor|].
    split; [left; reflexivity|].
    split; [symmetry; apply small_fits; [exact Hb | reflexivity]|].
    split; [symmetry; apply small_fits; [exact Hb | reflexivity]|].
    reflexivity.
Qed.

(** C4, a run of the theorem on 64-bit Linux and the small host. *)
Lemma capture_path_round_trip_witness :
  @pcm_path linux64 2 1 "c" = cstr "/dev/snd/" ++ cstr "pcmC2D1c"
  /\ @parsed_name.make linux64 (cstr "pcmC2D1c")
     = parsed_name.mk true 2 1 true.
Proof.
  assert (Hb : (2 <= @size_type_bits linux64)%N) by (vm_compute; discriminate).
  destruct (@capture_path_round_trip linux64 toy_host Hb) as (Hp & _ & Hr).
  split; [exact Hp | exact Hr].
Defined.

(** ** Translation of the native class codes *)

(** C9: the two translations are defined on every integer; the four
    recognised class codes and the two recognised subclass codes go to
    their values, every other code goes to [unknown], and so every result
    is one of the values of the enumeration. *)
Theorem class_translation_total :
  (forall code,
     ~ In code [SNDRV_PCM_CLASS_GENERIC; SNDRV_PCM_CLASS_MULTI;
                SNDRV_PCM_CLASS_MODEM; SNDRV_PCM_CLASS_DIGITIZER] ->
     to_tinyalsa_class code = class_unknown)
  /\ (forall code,
        ~ In code [SNDRV_PCM_SUBCLASS_GENERIC_MIX;
                   SNDRV_PCM_SUBCLASS_MULTI_MIX] ->
        to_tinyalsa_subclass code = subclass_unknown)
  /\ (to_tinyalsa_class SNDRV_PCM_CLASS_GENERIC = class_generic
      /\ to_tinyalsa_class SNDRV_PCM_CLASS_MULTI = class_multi_channel
      /\ to_tinyalsa_class SNDRV_PCM_CLASS_MODEM = class_modem
      /\ to_tinyalsa_class SNDRV_PCM_CLASS_DIGITIZER = class_digitizer
      /\ to_tinyalsa_subclass SNDRV_PCM_SUBCLASS_GENERIC_MIX
         = subclass_generic_mix
      /\ to_tinyalsa_subclass SNDRV_PCM_SUBCLASS_MULTI_MIX
         = subclass_multi_channel_mix)
  /\ (forall code,
        In (to_tinyalsa_class code)
          [class_unknown; class_generic; class_multi_channel; class_modem;
           class_digitizer])
  /\ (forall code,
        In (to_tinyalsa_subclass code)
          [subclass_unknown; subclass_generic_mix;
           subclass_multi_channel_mix]).
Proof.
  split; [|split; [|split; [|split]]].
  - intros code Hout. unfold to_tinyalsa_class.
    destruct (Z.eqb_spec code SNDRV_PCM_CLASS_GENERIC) as [->|_];
      [exfalso; apply Hout; simpl; tauto|].
    destruct (Z.eqb_spec code SNDRV_PCM_CLASS_MULTI) as [->|_];
      [exfalso; apply Hout; simpl; tauto|].
    destruct (Z.eqb_spec code SNDRV_PCM_CLASS_MODEM) as [->|_];
      [exfalso; apply Hout; simpl; tauto|].
    destruct (Z.eqb_spec code SNDRV_PCM_CLASS_DIGITIZER) as [->|_];
      [exfalso; apply Hout; simpl; tauto|].
    reflexivity.
  - intros code Hout. unfold to_tinyalsa_subclass.
    destruct (Z.eqb_spec code SNDRV_PCM_SUBCLASS_GENERIC_MIX) as [->|_];
      [exfalso; apply Hout; simpl; tauto|].
    destruct (Z.eqb_spec code SNDRV_PCM_SUBCLASS_MULTI_MIX) as [->|_];
      [exfalso; apply Hout; simpl; tauto|].
    reflexivity.
  - repeat split.
  - intros code. unfold to_tinyalsa_class.
    repeat (match goal with |- context [if ?b then _ else _] => destruct b end);
      simpl; tauto.
  - intros code. unfold to_tinyalsa_subclass.
    repeat (match goal with |- context [if ?b then _ else _] => destruct b end);
      simpl; tauto.
Qed.

(** C9, a run of the theorem: the codes 7 and -1 are not recognised. *)
Lemma class_translation_total_witness :
  to_tinyalsa_class 7 = class_unknown
  /\ to_tinyalsa_subclass (-1) = subclass_unknown.
Proof.
  split.
  - apply (proj1 class_translation_total).
    simpl. intros [E|[E|[E|[E|[]]]]]; discriminate E.
  - apply (proj1 (proj2 class_translation_total)).
    simpl. intros [E|[E|[]]]; discriminate E.
Defined.

(** ** Round trip, for every card and device *)

Lemma decimal_value_fold (l : cstring) :
  decimal_value l = fold_left value_step l 0%N.
Proof. reflexivity. Qed.

Lemma uint_digits (d : Decimal.uint) :
  digits (cstr (NilEmpty.string_of_uint d)).
Proof.
  induction d; cbn [NilEmpty.string_of_uint cstr list_ascii_of_string];
    constructor; try reflexivity; assumption.
Qed.

Lemma uint_value_acc (d : Decimal.uint) (acc : positive) :
  fold_left value_step (cstr (NilEmpty.string_of_uint d)) (Npos acc)
  = Npos (Pos.of_uint_acc d acc).
Proof.
  revert acc.
  induction d; intros acc;
    cbn [NilEmpty.string_of_uint cstr list_ascii_of_string fold_left
         Pos.of_uint_acc];
    try reflexivity;
    match goal with
    | |- fold_left _ _ ?a = N.pos (Pos.of_uint_acc _ ?b) =>
        replace a with (N.pos b)
          by (unfold value_step, digit_value; cbn [N_of_ascii N_of_digits];
              lia)
    end; apply IHd.
Qed.

Lemma uint_value (d : Decimal.uint) :
  decimal_value (cstr (NilEmpty.string_of_uint d)) = N.of_uint d.
Proof.
  rewrite decimal_value_fold. unfold N.of_uint.
  induction d;
    cbn [NilEmpty.string_of_uint cstr list_ascii_of_string fold_left
         Pos.of_uint];
    try reflexivity;
    try (match goal with
         | |- fold_left _ _ ?a = N.pos (Pos.of_uint_acc _ ?b) =>
             replace a with (N.pos b) by (vm_compute; reflexivity)
         end; apply uint_value_acc).
  replace (value_step 0 "0") with 0%N by (vm_compute; reflexivity).
  exact IHd.
Qed.

Lemma print_lu_digits (n : N) : digits (print_lu n).
Proof. apply uint_digits. Qed.

Lemma print_lu_value (n : N) : decimal_value (print_lu n) = n.
Proof. unfold print_lu. rewrite uint_value. apply DecimalN.Unsigned.of_to. Qed.

(** Whenever the synthesized path fits the 256 bytes of the buffer, its
    file name is accepted by the parser, which recovers the card, the
    device and the direction the path was made of. *)
Lemma path_round_trip `{Target} (card device : N) (suffix : ascii) :
  direction suffix ->
  (length (cstr "/dev/snd/" ++ pcm_file_name card device suffix) <= 255)%nat ->
  pcm_path card device suffix
  = cstr "/dev/snd/" ++ pcm_file_name card device suffix
  /\ parsed_name.make (pcm_file_name card device suffix)
     = parsed_name.mk true (to_size_type card) (to_size_type device)
         (suffix =? "c")%char.
Proof.
  intros Hdir Hfit. split.
  - unfold pcm_path.
    replace (cstr "/dev/snd/pcmC" ++ print_lu (to_size_type card)
             ++ cstr "D" ++ print_lu (to_size_type device) ++ [suffix])
      with (cstr "/dev/snd/" ++ pcm_file_name card device suffix)
      by reflexivity.
    apply firstn_all2. exact Hfit.
  - apply make_accepted.
    exists (print_lu (to_size_type card)),
           (print_lu (to_size_type device)), suffix.
    split; [reflexivity|].
    split; [apply print_lu_digits|].
    split; [apply print_lu_digits|].
    split; [exact Hdir|].
    rewrite !print_lu_value, !to_size_type_idem.
    repeat split.
Qed.

(** ** The handle *)

Section Handle.

Context `{Target} `{Host}.

Lemma live_fds_snoc (t : list event) (e : event) :
  live_fds (t ++ [e]) = live_step (live_fds t) e.
Proof. unfold live_fds. rewrite fold_left_app. reflexivity. Qed.

Lemma trace_sys_close (fd0 : Z) (s : sys) :
  trace (snd (sys_close fd0 s))
  = trace s ++ [ev_close fd0 (fst (sys_close fd0 s))].
Proof.
  unfold sys_close. destruct (host_close fd0 (kern s)) as [ret w].
  reflexivity.
Qed.

Lemma trace_sys_open (path : cstring) (flags : Z) (s : sys) :
  trace (snd (sys_open path flags s))
  = trace s ++ [ev_open path flags (fst (sys_open path flags s))].
Proof.
  unfold sys_open. destruct (host_open path flags (kern s)) as [ret w].
  reflexivity.
Qed.

Lemma trace_sys_alloc (s : sys) : trace (snd (sys_alloc s)) = trace s.
Proof. unfold sys_alloc. destruct (host_alloc (kern s)). reflexivity. Qed.

(** What [open_by_path] does, call by call: it closes the descriptor it
    holds, if any, then opens the path, and keeps the answer when it is
    not negative. *)
Lemma open_by_path_calls (impl : pcm_impl) (path : cstring)
  (non_blocking : bool) (s : sys) :
  exists closed ret,
    let '(r, impl', s') := open_by_path impl path non_blocking s in
    closed = (if fd impl =? invalid_fd then []
              else [ev_close (fd impl) (fst (sys_close (fd impl) s))])
    /\ trace s' = trace s ++ closed ++ [ev_open path (open_flags non_blocking) ret]
    /\ impl' = mk_pcm_impl (if ret <? 0 then invalid_fd else ret)
    /\ error r = (if ret <? 0 then errno (kern s') else 0).
Proof.
  unfold open_by_path.
  destruct (fd impl =? invalid_fd) eqn:Hfd; cbn [negb].
  - exists [], (fst (sys_open path (open_flags non_blocking) s)).
    fold (open_flags non_blocking).
    pose proof (trace_sys_open path (open_flags non_blocking) s) as Ht.
    destruct (sys_open path (open_flags non_blocking) s) as [ret s1].
    cbn [fst snd] in *.
    destruct (ret <? 0); (split; [reflexivity|]); (split; [exact Ht|]);
      split; reflexivity.
  - pose proof (trace_sys_close (fd impl) s) as Hc.
    set (s0 := snd (sys_close (fd impl) s)) in *.
    exists [ev_close (fd impl) (fst (sys_close (fd impl) s))],
           (fst (sys_open path (open_flags non_blocking) s0)).
    fold (open_flags non_blocking).
    pose proof (trace_sys_open path (open_flags non_blocking) s0) as Ht.
    destruct (sys_open path (open_flags non_blocking) s0) as [ret s1].
    cbn [fst snd] in *.
    rewrite Hc, <- app_assoc in Ht.
    destruct (ret <? 0); (split; [reflexivity|]); (split; [exact Ht|]);
      split; reflexivity.
Qed.

(** C6: on a handle whose implementation was never allocated (a new
    handle, or one that was moved from: [self] is null), [prepare],
    [start], [drop] and [get_info] fail with [ENOENT], and the system is
    left as it was: no call is issued. *)
Theorem never_opened_ENOENT (p : pcm) (s : sys) :
  self p = None ->
  prepare p s = (mk_result ENOENT, s)
  /\ start p s = (mk_result ENOENT, s)
  /\ drop p s = (mk_result ENOENT, s)
  /\ get_info p s = (mk_generic_result ENOENT pcm_info_init, s)
  /\ failed (mk_result ENOENT) = true
  /\ gr_failed (mk_generic_result ENOENT pcm_info_init) = true.
Proof.
  intros Hnull. unfold prepare, start, drop, get_info. rewrite Hnull.
  repeat split.
Qed.

(** A new handle and a handle that was moved from have no
    implementation. *)
Lemma new_handle_unallocated (other : pcm) :
  self pcm_new = None /\ self (snd (pcm_move other)) = None.
Proof. split; reflexivity. Qed.

(** C8: a new handle is not open and its descriptor is the invalid one;
    [close] on a handle that is not open (never opened, or closed
    already) returns 0 and issues no call, so a second [close] always
    returns 0; [close] on an open handle issues one [close] on the
    descriptor and leaves the handle not open whatever the call answers,
    returning [errno] when the answer is -1 and 0 otherwise. *)
Theorem handle_lifecycle :
  is_open pcm_new = false
  /\ get_file_descriptor pcm_new = invalid_fd
  /\ (forall s, close pcm_new s = (0, pcm_new, s))
  /\ (forall p s, is_open p = false -> close p s = (0, p, s))
  /\ (forall p s,
        let '(_, p', s') := close p s in close p' s' = (0, p', s'))
  /\ (forall p s,
        is_open p = true ->
        exists ret,
          let '(code, p', s') := close p s in
          trace s' = trace s ++ [ev_close (get_file_descriptor p) ret]
          /\ is_open p' = false
          /\ get_file_descriptor p' = invalid_fd
          /\ (ret = -1 -> code = errno (kern s'))
          /\ (ret <> -1 -> code = 0)).
Proof.
  split; [reflexivity|]. split; [reflexivity|]. split; [reflexivity|].
  assert (Hclosed : forall p s, is_open p = false -> close p s = (0, p, s)).
  { intros [[impl|]] s Hp; unfold close, is_open in *; cbn [self] in *.
    - rewrite Hp. reflexivity.
    - reflexivity. }
  split; [exact Hclosed|]. split.
  - intros [[impl|]] s; unfold close; cbn [self]; [|reflexivity].
    destruct (negb (fd impl =? invalid_fd)) eqn:Hfd.
    + destruct (sys_close (fd impl) s) as [ret s1].
      destruct (ret =? -1); cbn [self fd]; rewrite Z.eqb_refl; reflexivity.
    + cbn [self]. rewrite Hfd. reflexivity.
  - intros [[impl|]] s Hp; unfold close, is_open, get_file_descriptor in *;
      cbn [self] in *; [|discriminate].
    rewrite Hp. exists (fst (sys_close (fd impl) s)).
    pose proof (trace_sys_close (fd impl) s) as Ht.
    destruct (sys_close (fd impl) s) as [ret s1]. cbn [fst snd] in *.
    destruct (Z.eqb_spec ret (-1)); cbn [self fd]; rewrite Z.eqb_refl;
      repeat split; try assumption; try reflexivity; intros; congruence.
Qed.

(** C10: [open_by_path] first issues [close] on the descriptor it
    holds, if any; when the [open] it issues next answers a negative
    number, the descriptor of the handle is the invalid one, so the
    handle is not open and no longer holds the descriptor it held
    before, and the result is [errno]. *)
Theorem failed_open_leaves_closed (impl : pcm_impl) (path : cstring)
  (non_blocking : bool) (s : sys) :
  let s0 := if fd impl =? invalid_fd then s
            else snd (sys_close (fd impl) s) in
  fst (host_open path (open_flags non_blocking) (kern s0)) < 0 ->
  let '(r, impl', s') := open_by_path impl path non_blocking s in
  fd impl' = invalid_fd
  /\ is_open (mk_pcm (Some impl')) = false
  /\ get_file_descriptor (mk_pcm (Some impl')) = invalid_fd
  /\ error r = errno (kern s')
  /\ (exists ret,
        ret < 0
        /\ trace s' = trace s0 ++ [ev_open path (open_flags non_blocking) ret])
  /\ (fd impl <> invalid_fd ->
      get_file_descriptor (mk_pcm (Some impl')) <> fd impl
      /\ exists closed_ret,
           trace s0 = trace s ++ [ev_close (fd impl) closed_ret]).
Proof.
  intros s0 Hfail. unfold open_by_path.
  fold (open_flags non_blocking).
  replace (if negb (fd impl =? invalid_fd)
           then snd (sys_close (fd impl) s) else s) with s0
    by (unfold s0; destruct (fd impl =? invalid_fd); reflexivity).
  unfold sys_open.
  destruct (host_open path (open_flags non_blocking) (kern s0)) as [ret w].
  cbn [fst] in Hfail. apply Z.ltb_lt in Hfail. rewrite Hfail.
  unfold is_open, get_file_descriptor. cbn [self fd log kern trace error].
  rewrite Z.eqb_refl.
  split; [reflexivity|]. split; [reflexivity|]. split; [reflexivity|].
  split; [reflexivity|]. split.
  - exists ret. split; [apply Z.ltb_lt; exact Hfail | reflexivity].
  - intros Hheld. split.
    + intros E. apply Hheld. symmetry. exact E.
    + apply Z.eqb_neq in Hheld. unfold s0. rewrite Hheld.
      eexists. apply trace_sys_close.
Qed.

(** ** Reading frames *)

Lemma size_type_of_Z_small (x : Z) :
  0 <= x < 2 ^ Z.of_N size_type_bits -> Z.of_N (size_type_of_Z x) = x.
Proof.
  intros Hx. unfold size_type_of_Z. rewrite Z.mod_small by exact Hx.
  apply Z2N.id. lia.
Qed.

(** C7: [read_unformatted] issues the frame-read call once, on the
    descriptor of the handle, for [frame_count] frames.  When the call
    does not answer 0 the result is [EINVAL] with a count of zero.  When
    it answers 0 the result is success with the count the call left in
    the transfer structure, converted to [size_type]: that count itself
    when it is not negative and fits, and in particular when it is less
    than [frame_count]. *)
Theorem read_unformatted_result (p : pcm) (frames : Z) (frame_count : N)
  (s : sys) :
  exists ret transfer,
    let '(r, s') := read_unformatted p frames frame_count s in
    fst (host_ioctl_readi (get_file_descriptor p)
           {| xf_result := 0; xf_buf := frames;
              xf_frames := to_size_type frame_count |} (kern s))
    = (ret, transfer)
    /\ trace s'
       = trace s ++ [ev_ioctl (get_file_descriptor p)
                       SNDRV_PCM_IOCTL_READI_FRAMES ret]
    /\ (ret <> 0 -> r = mk_generic_result EINVAL 0%N /\ gr_failed r = true)
    /\ (ret = 0 ->
        gr_failed r = false
        /\ gr_value r = size_type_of_Z (xf_result transfer)
        /\ (0 <= xf_result transfer < 2 ^ Z.of_N size_type_bits ->
            Z.of_N (gr_value r) = xf_result transfer)
        /\ (0 <= xf_result transfer < Z.of_N (to_size_type frame_count) ->
            Z.of_N (gr_value r) = xf_result transfer)).
Proof.
  unfold read_unformatted, sys_ioctl_readi.
  destruct (host_ioctl_readi (get_file_descriptor p) _ (kern s))
    as [[ret transfer] w].
  exists ret, transfer. cbn [fst].
  destruct (Z.eqb_spec ret 0) as [->|Hne]; cbn [negb].
  - split; [reflexivity|]. split; [reflexivity|].
    split; [intros E; contradiction E; reflexivity|].
    intros _. split; [reflexivity|]. split; [reflexivity|]. cbn [gr_value].
    split; [apply size_type_of_Z_small|].
    intros [Hlo Hhi]. apply size_type_of_Z_small. split; [exact Hlo|].
    apply Z.lt_trans with (1 := Hhi).
    unfold to_size_type. change 2 with (Z.of_N 2).
    rewrite <- N2Z.inj_pow. apply N2Z.inj_lt.
    apply N.mod_lt. apply N.pow_nonzero. discriminate.
  - split; [reflexivity|]. split; [reflexivity|].
    split; [intros _; split; reflexivity|].
    intros E. contradiction.
Qed.

(** ** Operations on an unallocated handle *)

(** C3, as the code has it: on a handle whose implementation is not
    allocated, [prepare], [start], [drop] and [get_info] return [ENOENT]
    and issue no call; [close] returns 0 and [setup] returns [EPROTO];
    [read_unformatted] issues the frame-read call on the invalid
    descriptor and returns [EINVAL] when the call does not answer 0, and 0
    when it does: never [ENOENT]. *)
Theorem unallocated_handle_codes (op : pcm_op) (s : sys) :
  let '(code, p', s') := run_op op pcm_new s in
  match op with
  | op_prepare | op_start | op_drop | op_get_info =>
      code = ENOENT /\ s' = s /\ p' = pcm_new
  | op_close => code = 0 /\ s' = s /\ p' = pcm_new
  | op_setup => code = EPROTO /\ s' = s /\ p' = pcm_new
  | op_read_unformatted _ _ =>
      exists ret,
        trace s' = trace s ++ [ev_ioctl invalid_fd
                                 SNDRV_PCM_IOCTL_READI_FRAMES ret]
        /\ code = (if ret =? 0 then 0 else EINVAL)
        /\ code <> ENOENT
        /\ p' = pcm_new
  | op_open_capture_device _ _ _ | op_open_playback_device _ _ _ => True
  end.
Proof.
  destruct op; cbn [run_op].
  - destruct (open_capture_device _ _ _ _ _) as [[r p'] s']. exact I.
  - destruct (open_playback_device _ _ _ _ _) as [[r p'] s']. exact I.
  - repeat split.
  - repeat split.
  - repeat split.
  - repeat split.
  - repeat split.
  - repeat split.
  - unfold read_unformatted, sys_ioctl_readi. cbn [get_file_descriptor pcm_new self].
    destruct (host_ioctl_readi invalid_fd _ (kern s)) as [[ret transfer] w].
    destruct (ret =? 0) eqn:Hret; cbn [negb gr_error];
      exists ret; rewrite Hret; repeat split; discriminate.
Qed.

(** ** One descriptor at most *)

Lemma wrapped_closed : wrapped (mk_pcm (Some (mk_pcm_impl invalid_fd))) = [].
Proof. unfold wrapped, is_open. cbn [self fd]. rewrite Z.eqb_refl. reflexivity. Qed.

Lemma wrapped_open (d : Z) :
  d <> invalid_fd -> wrapped (mk_pcm (Some (mk_pcm_impl d))) = [d].
Proof.
  intros Hd. unfold wrapped, is_open, get_file_descriptor. cbn [self fd].
  apply Z.eqb_neq in Hd. rewrite Hd. reflexivity.
Qed.

Lemma wrapped_impl (impl : pcm_impl) :
  wrapped (mk_pcm (Some impl))
  = if fd impl =? invalid_fd then [] else [fd impl].
Proof.
  unfold wrapped, is_open, get_file_descriptor. cbn [self].
  destruct (fd impl =? invalid_fd); reflexivity.
Qed.

Lemma remove_one_single (d : Z) : remove_one d [d] = [].
Proof. simpl. rewrite Z.eqb_refl. reflexivity. Qed.

(** [open_by_path] keeps the live descriptors equal to the wrapped ones. *)
Lemma open_by_path_wrapped (impl : pcm_impl) (path : cstring)
  (non_blocking : bool) (s : sys) :
  invalid_fd < 0 ->
  live_fds (trace s) = wrapped (mk_pcm (Some impl)) ->
  let '(_, impl', s') := open_by_path impl path non_blocking s in
  live_fds (trace s') = wrapped (mk_pcm (Some impl')).
Proof.
  intros Hinv Hlive.
  destruct (open_by_path_calls impl path non_blocking s)
    as (closed & ret & Hc).
  destruct (open_by_path impl path non_blocking s) as [[r impl'] s'].
  destruct Hc as (Hclosed & Ht & Himpl & _).
  rewrite Ht, app_assoc, live_fds_snoc. cbn [live_step].
  assert (Hmid : live_fds (trace s ++ closed) = []).
  { rewrite wrapped_impl in Hlive. subst closed.
    destruct (fd impl =? invalid_fd).
    - rewrite app_nil_r. exact Hlive.
    - rewrite live_fds_snoc, Hlive. cbn [live_step].
      apply remove_one_single. }
  rewrite Hmid. subst impl'.
  destruct (Z.ltb_spec ret 0).
  - symmetry. apply wrapped_closed.
  - symmetry. apply wrapped_open. lia.
Qed.

Lemma open_device_wrapped (suffix : ascii) (p : pcm) (card device : N)
  (non_blocking : bool) (s : sys) :
  invalid_fd < 0 ->
  live_fds (trace s) = wrapped p ->
  let '(_, p', s') := open_device suffix p card device non_blocking s in
  live_fds (trace s') = wrapped p'.
Proof.
  intros Hinv Hlive. unfold open_device, lazy_init.
  destruct p as [[impl|]]; cbn [self].
  - pose proof (open_by_path_wrapped impl (pcm_path card device suffix)
                  non_blocking s Hinv Hlive) as Hw.
    destruct (open_by_path impl _ non_blocking s) as [[r impl'] s'].
    exact Hw.
  - pose proof (trace_sys_alloc s) as Ha.
    destruct (sys_alloc s) as [ok s0]. cbn [snd] in Ha.
    destruct ok.
    + assert (Hl0 : live_fds (trace s0)
                    = wrapped (mk_pcm (Some (mk_pcm_impl invalid_fd))))
        by (rewrite Ha, Hlive, wrapped_closed; reflexivity).
      pose proof (open_by_path_wrapped (mk_pcm_impl invalid_fd)
                    (pcm_path card device suffix) non_blocking s0 Hinv Hl0)
        as Hw.
      destruct (open_by_path _ _ non_blocking s0) as [[r impl'] s'].
      exact Hw.
    + rewrite Ha. exact Hlive.
Qed.

Lemma close_wrapped (p : pcm) (s : sys) :
  live_fds (trace s) = wrapped p ->
  let '(_, p', s') := close p s in
  live_fds (trace s') = [] /\ wrapped p' = [].
Proof.
  intros Hlive. unfold close. destruct p as [[impl|]]; cbn [self].
  - rewrite wrapped_impl in Hlive.
    destruct (fd impl =? invalid_fd) eqn:Hfd; cbn [negb].
    + split; [exact Hlive|]. rewrite wrapped_impl, Hfd. reflexivity.
    + pose proof (trace_sys_close (fd impl) s) as Ht.
      destruct (sys_close (fd impl) s) as [ret s1]. cbn [fst snd] in Ht.
      assert (Hl : live_fds (trace s1) = []).
      { rewrite Ht, live_fds_snoc, Hlive. cbn [live_step].
        apply remove_one_single. }
      destruct (ret =? -1); (split; [exact Hl | apply wrapped_closed]).
  - split; [exact Hlive | reflexivity].
Qed.

Lemma control_trace (request : ioctl_request) (p : pcm) (s : sys) :
  live_fds (trace (snd (control request p s))) = live_fds (trace s).
Proof.
  unfold control, sys_ioctl. destruct (self p) as [impl|]; [|reflexivity].
  destruct (host_ioctl (fd impl) request (kern s)) as [ret w].
  destruct (ret <? 0); cbn [snd log trace]; apply live_fds_snoc.
Qed.

Lemma get_info_trace (p : pcm) (s : sys) :
  live_fds (trace (snd (get_info p s))) = live_fds (trace s).
Proof.
  unfold get_info, sys_ioctl_info. destruct (self p) as [impl|]; [|reflexivity].
  destruct (host_ioctl_info (fd impl) (kern s)) as [[ret info] w].
  destruct (negb (ret =? 0)); cbn [snd log trace]; apply live_fds_snoc.
Qed.

Lemma read_unformatted_trace (p : pcm) (frames : Z) (frame_count : N)
  (s : sys) :
  live_fds (trace (snd (read_unformatted p frames frame_count s)))
  = live_fds (trace s).
Proof.
  unfold read_unformatted, sys_ioctl_readi.
  destruct (host_ioctl_readi _ _ (kern s)) as [[ret transfer] w].
  destruct (negb (ret =? 0)); cbn [snd log trace]; apply live_fds_snoc.
Qed.

Lemma run_op_wrapped (op : pcm_op) (p : pcm) (s : sys) :
  invalid_fd < 0 ->
  live_fds (trace s) = wrapped p ->
  let '(_, p', s') := run_op op p s in
  live_fds (trace s') = wrapped p'.
Proof.
  intros Hinv Hlive.
  destruct op as [c d nb|c d nb| | | | | | |frames frame_count];
    cbn [run_op].
  - pose proof (open_device_wrapped "c" p c d nb s Hinv Hlive) as Hw.
    change (open_capture_device p c d nb s) with (open_device "c" p c d nb s).
    destruct (open_device "c" p c d nb s) as [[r p'] s'].
    exact Hw.
  - pose proof (open_device_wrapped "p" p c d nb s Hinv Hlive) as Hw.
    change (open_playback_device p c d nb s) with (open_device "p" p c d nb s).
    destruct (open_device "p" p c d nb s) as [[r p'] s'].
    exact Hw.
  - pose proof (close_wrapped p s Hlive) as Hw.
    destruct (close p s) as [[code p'] s']. destruct Hw as [-> ->].
    reflexivity.
  - pose proof (control_trace SNDRV_PCM_IOCTL_PREPARE p s) as Ht.
    change (prepare p s) with (control SNDRV_PCM_IOCTL_PREPARE p s).
    destruct (control _ p s) as [r s']. cbn [snd] in Ht.
    rewrite Ht. exact Hlive.
  - exact Hlive.
  - pose proof (control_trace SNDRV_PCM_IOCTL_START p s) as Ht.
    change (start p s) with (control SNDRV_PCM_IOCTL_START p s).
    destruct (control _ p s) as [r s']. cbn [snd] in Ht.
    rewrite Ht. exact Hlive.
  - pose proof (control_trace SNDRV_PCM_IOCTL_DROP p s) as Ht.
    change (drop p s) with (control SNDRV_PCM_IOCTL_DROP p s).
    destruct (control _ p s) as [r s']. cbn [snd] in Ht.
    rewrite Ht. exact Hlive.
  - pose proof (get_info_trace p s) as Ht.
    destruct (get_info p s) as [r s']. cbn [snd] in Ht.
    rewrite Ht. exact Hlive.
  - pose proof (read_unformatted_trace p frames frame_count s) as Ht.
    destruct (read_unformatted p frames frame_count s) as [r s'].
    cbn [snd] in Ht. rewrite Ht. exact Hlive.
Qed.

Lemma run_ops_wrapped (ops : list pcm_op) (p : pcm) (s : sys) :
  invalid_fd < 0 ->
  live_fds (trace s) = wrapped p ->
  let '(p', s') := run_ops ops p s in
  live_fds (trace s') = wrapped p'.
Proof.
  intros Hinv. revert p s. induction ops as [|op ops IH]; intros p s Hlive.
  - exact Hlive.
  - cbn [run_ops]. pose proof (run_op_wrapped op p s Hinv Hlive) as Hw.
    destruct (run_op op p s) as [[code p1] s1]. apply IH. exact Hw.
Qed.

Lemma wrapped_length (p : pcm) : (length (wrapped p) <= 1)%nat.
Proof. unfold wrapped. destruct (is_open p); simpl; lia. Qed.

(** C5: with a negative invalid descriptor, the descriptors that a
    handle has obtained from [open] and not yet given to [close] are the
    one it wraps when it is open and none otherwise: each operation
    preserves this, so it holds after any sequence of operations on a new
    handle, and never are two descriptors live; destroying the handle
    leaves none.  And [open_by_path] on a handle that holds a descriptor
    issues [close] on it before it issues [open]. *)
Theorem one_descriptor_at_most :
  invalid_fd < 0 ->
  (forall op p s,
     live_fds (trace s) = wrapped p ->
     let '(_, p', s') := run_op op p s in
     live_fds (trace s') = wrapped p')
  /\ (forall ops s,
        live_fds (trace s) = [] ->
        let '(p', s') := run_ops ops pcm_new s in
        live_fds (trace s') = wrapped p'
        /\ (length (live_fds (trace s')) <= 1)%nat
        /\ live_fds (trace (pcm_delete p' s')) = [])
  /\ (forall impl path non_blocking s,
        fd impl <> invalid_fd ->
        exists closed_ret ret,
          trace (snd (open_by_path impl path non_blocking s))
          = trace s ++ [ev_close (fd impl) closed_ret;
                        ev_open path (open_flags non_blocking) ret]).
Proof.
  intros Hinv. split; [|split].
  - intros op p s Hlive. apply run_op_wrapped; assumption.
  - intros ops s Hlive.
    pose proof (run_ops_wrapped ops pcm_new s Hinv Hlive) as Hw.
    destruct (run_ops ops pcm_new s) as [p' s'].
    split; [exact Hw|]. split; [rewrite Hw; apply wrapped_length|].
    pose proof (close_wrapped p' s' Hw) as Hc. unfold pcm_delete.
    destruct (close p' s') as [[code p2] s2]. apply Hc.
  - intros impl path non_blocking s Hfd.
    destruct (open_by_path_calls impl path non_blocking s)
      as (closed & ret & Hc).
    destruct (open_by_path impl path non_blocking s) as [[r impl'] s'].
    destruct Hc as (Hclosed & Ht & _).
    apply Z.eqb_neq in Hfd. rewrite Hfd in Hclosed. subst closed.
    eexists. exists ret. exact Ht.
Qed.

(** ** The PCM list *)

(** The loop of the constructor appends to the vector the enumeration of
    the entries it is given. *)
Lemma scan_entries_enumeration (entries : list cstring)
  (info_vec : list pcm_info) (s : sys) :
  fst (scan_entries entries info_vec s) = info_vec ++ enumeration entries s.
Proof.
  unfold enumeration. revert info_vec s.
  induction entries as [|d_name entries IH]; intros info_vec s.
  - cbn. rewrite app_nil_r. reflexivity.
  - cbn [scan_entries outcomes]. unfold candidate, open_implied.
    unfold non_blocking_default.
    destruct (parsed_name.valid (parsed_name.make d_name)); cbn [negb];
      [|apply IH].
    set (opened :=
           if parsed_name.is_capture (parsed_name.make d_name)
           then open_capture_device pcm_new
                  (parsed_name.card (parsed_name.make d_name))
                  (parsed_name.device (parsed_name.make d_name)) false s
           else open_playback_device pcm_new
                  (parsed_name.card (parsed_name.make d_name))
                  (parsed_name.device (parsed_name.make d_name)) false s).
    destruct opened as [[r p] s1].
    destruct (failed r); [apply IH|].
    destruct (get_info p s1) as [info s2].
    destruct (gr_failed info); [apply IH|].
    unfold emplace_back, unwrap.
    destruct (sys_alloc s2) as [ok s3]. destruct ok; cbn [negb].
    + rewrite IH. cbn [until_refused snapshots flat_map fst].
      rewrite <- app_assoc. reflexivity.
    + cbn. rewrite app_nil_r. reflexivity.
Qed.

(** An entry whose name the parser rejects contributes nothing and costs
    no call. *)
Lemma candidate_rejected (d_name : cstring) (s : sys) :
  parsed_name.valid (parsed_name.make d_name) = false ->
  candidate d_name s = (None, false, s).
Proof. intros Hv. unfold candidate. rewrite Hv. reflexivity. Qed.

(** Only an append is ever refused. *)
Lemma candidate_refused (d_name : cstring) (s : sys) :
  snd (fst (candidate d_name s)) = true ->
  fst (fst (candidate d_name s)) <> None.
Proof.
  unfold candidate.
  destruct (parsed_name.valid (parsed_name.make d_name)); [|discriminate].
  destruct (open_implied _ s) as [[r p] s1].
  destruct (failed r); [discriminate|].
  destruct (get_info p s1) as [info s2].
  destruct (gr_failed info); [discriminate|].
  destruct (sys_alloc s2) as [ok s3]. discriminate.
Qed.

(** While no append is refused, the enumeration is the list of the
    snapshots of all entries, in their order. *)
Lemma enumeration_all (entries : list cstring) (s : sys) :
  Forall (fun o => snd o = false) (outcomes entries s) ->
  enumeration entries s = snapshots (outcomes entries s).
Proof.
  unfold enumeration. intros Hall. f_equal.
  induction Hall as [|[snapshot refused] l Ho Hl IH]; [reflexivity|].
  cbn [snd] in Ho. subst refused. cbn [until_refused]. rewrite IH.
  reflexivity.
Qed.

(** C2: the list a construction leaves is one enumeration pass over the
    entries of [/dev/snd]: the snapshots of the entries whose name the
    parser accepts, whose implied device opens (capture or playback by the
    parsed direction, blocking) and whose [get_info] succeeds, in the
    order of the scan, every other entry being passed over; the scan stops
    at the first append that is refused, keeping what it has.  The list is
    empty when its storage cannot be allocated or the directory does not
    open.  The constructor returns nothing but the list. *)
Theorem pcm_list_enumerates (s : sys) :
  let '(l, s') := pcm_list_new s in
  let '(ok, s0) := sys_alloc s in
  if ok then
    match sys_opendir (cstr "/dev/snd") s0 with
    | (Some entries, s1) =>
        data l = enumeration entries s1
        /\ size l = N.of_nat (length (enumeration entries s1))
    | (None, s1) => data l = [] /\ size l = 0%N
    end
  else data l = [] /\ size l = 0%N.
Proof.
  unfold pcm_list_new.
  destruct (sys_alloc s) as [ok s0]. destruct ok; cbn [negb].
  - destruct (sys_opendir (cstr "/dev/snd") s0) as [[entries|] s1].
    + pose proof (scan_entries_enumeration entries [] s1) as Hscan.
      destruct (scan_entries entries [] s1) as [info_vec s2].
      cbn [fst app] in Hscan. subst info_vec.
      split; reflexivity.
    + split; reflexivity.
  - split; reflexivity.
Qed.

End Handle.

(** ** Concrete runs on 64-bit Linux and the small host *)

(** The example of the specification: of the entries [pcmC0D0c],
    [pcmC0D0p], [garbage.txt] and [pcmC1D2p] the list holds the snapshots
    of the three devices, in the order of the scan (the small host puts
    the descriptor in the device field), and no descriptor stays open. *)
Example pcm_list_of_four_entries :
  let '(l, s) := @pcm_list_new linux64 toy_host toy_sys in
  map device (@data l) = [3; 4; 5]
  /\ size l = 3%N
  /\ live_fds (trace s) = [].
Proof. vm_compute. repeat split. Qed.

(** With memory for four allocations (the list, the first handle, the
    first append, the second handle) the second append is refused: the
    scan stops there and keeps the first snapshot; the third device is
    never opened and no descriptor stays open. *)
Example pcm_list_out_of_memory :
  let boot := {| t_errno := 0; t_devices := t_devices toy_boot;
                 t_dir := t_dir toy_boot; t_open := []; t_next := 3;
                 t_heap := 4; t_short := 3 |} in
  let '(l, s) := @pcm_list_new linux64 toy_host (@mk_sys toy_host boot []) in
  map device (@data l) = [3]
  /\ live_fds (trace s) = []
  /\ ~ In (ev_open (cstr "/dev/snd/pcmC1D2p") O_RDWR 5) (trace s).
Proof.
  vm_compute. repeat split.
  intros Hin. repeat (destruct Hin as [Hin|Hin]; [discriminate Hin|]).
  exact Hin.
Qed.

(** C8, a run of the theorem: a handle holding descriptor 3, which the
    small host does not know; [close] fails with [EBADF] and the handle
    is not open afterwards. *)
Lemma handle_lifecycle_witness :
  let p := mk_pcm (Some (mk_pcm_impl 3)) in
  @is_open linux64 p = true
  /\ exists ret,
       let '(code, p', s') := @close linux64 toy_host p toy_sys in
       trace s' = trace toy_sys ++ [ev_close (@get_file_descriptor linux64 p) ret]
       /\ @is_open linux64 p' = false
       /\ @get_file_descriptor linux64 p' = @invalid_fd linux64
       /\ (ret = -1 -> code = @errno toy_host (kern s'))
       /\ (ret <> -1 -> code = 0).
Proof.
  split; [reflexivity|].
  destruct (@handle_lifecycle linux64 toy_host) as (_ & _ & _ & _ & _ & Hopen).
  exact (Hopen (mk_pcm (Some (mk_pcm_impl 3))) toy_sys eq_refl).
Defined.

(** C10, a run of the theorem: the handle open on descriptor 3 is asked
    to open a path that does not exist. *)
Lemma failed_open_leaves_closed_witness :
  let '(r, impl', s') :=
    @open_by_path linux64 toy_host (mk_pcm_impl 3) (cstr "/dev/snd/none")
      false toy_open_sys in
  fd impl' = -1
  /\ @is_open linux64 (mk_pcm (Some impl')) = false
  /\ error r = ENOENT
  /\ live_fds (trace s') = [].
Proof.
  pose proof (@failed_open_leaves_closed linux64 toy_host (mk_pcm_impl 3)
                (cstr "/dev/snd/none") false toy_open_sys) as Hw.
  cbv zeta in Hw.
  assert (Hfail :
    fst (@host_open toy_host (cstr "/dev/snd/none") (open_flags false)
           (kern (if fd (mk_pcm_impl 3) =? @invalid_fd linux64
                  then toy_open_sys
                  else snd (@sys_close toy_host (fd (mk_pcm_impl 3))
                              toy_open_sys)))) < 0)
    by (vm_compute; reflexivity).
  specialize (Hw Hfail).
  destruct (@open_by_path linux64 toy_host (mk_pcm_impl 3)
              (cstr "/dev/snd/none") false toy_open_sys)
    as [[r impl'] s'] eqn:E.
  destruct Hw as (Hfd & Hopen & _ & Herr & _ & _).
  split; [exact Hfd|]. split; [exact Hopen|].
  vm_compute in E. injection E as <- _ <-.
  split; reflexivity.
Defined.

(** C5, a run of the theorem: a handle is opened, opened again on
    another device, prepared, and opened on a device that does not
    exist. *)
Lemma one_descriptor_at_most_witness :
  @invalid_fd linux64 < 0
  /\ let '(p', s') :=
       @run_ops linux64 toy_host
         [op_open_capture_device 0 0 false;
          op_open_playback_device 0 0 false;
          op_prepare;
          op_open_capture_device 9 9 true]
         pcm_new toy_sys in
     live_fds (trace s') = @wrapped linux64 p'
     /\ (length (live_fds (trace s')) <= 1)%nat
     /\ live_fds (trace (@pcm_delete linux64 toy_host p' s')) = [].
Proof.
  split; [reflexivity|].
  destruct (@one_descriptor_at_most linux64 toy_host eq_refl)
    as (_ & Hops & _).
  exact (Hops [op_open_capture_device 0 0 false;
               op_open_playback_device 0 0 false;
               op_prepare;
               op_open_capture_device 9 9 true] toy_sys eq_refl).
Defined.

(** C7, a run of the theorem: ten frames are asked of the handle open on
    descriptor 3; the small host delivers three, and the read succeeds
    with a count of three. *)
Lemma read_unformatted_result_witness :
  let '(r, s') :=
    @read_unformatted linux64 toy_host (mk_pcm (Some (mk_pcm_impl 3))) 0 10
      toy_open_sys in
  gr_failed r = false /\ Z.of_N (gr_value r) = 3.
Proof.
  destruct (@read_unformatted_result linux64 toy_host
              (mk_pcm (Some (mk_pcm_impl 3))) 0 10%N toy_open_sys)
    as (ret & transfer & Hc).
  destruct (@read_unformatted linux64 toy_host
              (mk_pcm (Some (mk_pcm_impl 3))) 0 10%N toy_open_sys)
    as [r s'].
  destruct Hc as (Hhost & _ & _ & Hok).
  vm_compute in Hhost. injection Hhost as <- <-.
  destruct (Hok eq_refl) as (Hs & _ & _ & Hshort).
  split; [exact Hs|].
  apply Hshort. vm_compute. split; [discriminate | reflexivity].
Defined.

(** C3 as the specification words it fails: on a new handle
    [read_unformatted] returns [EINVAL], [close] returns 0 and [setup]
    returns [EPROTO]; none of them is [ENOENT]. *)
Lemma unallocated_handle_counterexample :
  let code op := fst (fst (@run_op linux64 toy_host op pcm_new toy_sys)) in
  code (op_read_unformatted 0 10) = EINVAL
  /\ code (op_read_unformatted 0 10) <> ENOENT
  /\ code op_close = 0
  /\ code op_close <> ENOENT
  /\ code op_setup = EPROTO
  /\ code op_setup <> ENOENT.
Proof. vm_compute. repeat split; discriminate. Qed.

(** C3, a run of the theorem on [read_unformatted]. *)
Lemma unallocated_handle_codes_witness :
  let '(code, p', s') :=
    @run_op linux64 toy_host (op_read_unformatted 0 10) pcm_new toy_sys in
  code <> ENOENT.
Proof.
  pose proof (@unallocated_handle_codes linux64 toy_host
                (op_read_unformatted 0 10) toy_sys) as Hw.
  destruct (@run_op linux64 toy_host (op_read_unformatted 0 10) pcm_new
              toy_sys) as [[code p'] s'].
  destruct Hw as (ret & _ & _ & Hne & _). exact Hne.
Defined.

(** C6, a run of the theorem on a new handle. *)
Lemma never_opened_ENOENT_witness :
  self pcm_new = None
  /\ @prepare toy_host pcm_new toy_sys = (mk_result ENOENT, toy_sys)
  /\ @get_info linux64 toy_host pcm_new toy_sys
     = (mk_generic_result ENOENT (@pcm_info_init linux64), toy_sys).
Proof.
  split; [reflexivity|].
  destruct (@never_opened_ENOENT linux64 toy_host pcm_new toy_sys eq_refl)
    as (Hp & _ & _ & Hi & _).
  split; [exact Hp | exact Hi].
Defined.

(** C2, a run of the theorem on the directory of the small host. *)
Lemma pcm_list_enumerates_witness :
  map device (@data (fst (@pcm_list_new linux64 toy_host toy_sys)))
  = [3; 4; 5].
Proof.
  pose proof (@pcm_list_enumerates linux64 toy_host toy_sys) as Hw.
  destruct (@pcm_list_new linux64 toy_host toy_sys) as [l s'].
  destruct l as [[info_vec|]]; vm_compute in Hw; destruct Hw as [Hd _];
    [subst info_vec; reflexivity | discriminate Hd].
Defined.

(** ** The path always fits the buffer *)

Lemma fold_value_lower (l : cstring) (acc : N) :
  (acc * 10 ^ N.of_nat (length l) <= fold_left value_step l acc)%N.
Proof.
  revert acc. induction l as [|c l IH]; intros acc.
  - cbn. lia.
  - cbn [fold_left length]. rewrite Nat2N.inj_succ, N.pow_succ_r'.
    specialize (IH (value_step acc c)). unfold value_step in *.
    nia.
Qed.

Lemma to_uint_normal (n : N) : Decimal.unorm (N.to_uint n) = N.to_uint n.
Proof.
  rewrite <- (DecimalN.Unsigned.to_of (N.to_uint n)).
  rewrite DecimalN.Unsigned.of_to. reflexivity.
Qed.

(** A decimal without a leading zero is at least ten to the number of
    its digits less one. *)
Lemma uint_value_lower (d : Decimal.uint) :
  d <> Decimal.Nil -> (forall d', d <> Decimal.D0 d') ->
  (10 ^ (N.of_nat (length (cstr (NilEmpty.string_of_uint d))) - 1)
   <= decimal_value (cstr (NilEmpty.string_of_uint d)))%N.
Proof.
  intros Hnil Hzero. rewrite decimal_value_fold.
  destruct d as [|d|d|d|d|d|d|d|d|d|d];
    [contradiction Hnil; reflexivity | contradiction (Hzero d); reflexivity
    | | | | | | | | |];
    cbn [NilEmpty.string_of_uint cstr list_ascii_of_string fold_left length];
    rewrite Nat2N.inj_succ, N.sub_1_r, N.pred_succ;
    match goal with
    | |- (_ <= fold_left value_step ?l ?a)%N =>
        pose proof (fold_value_lower l a) as Hl;
        assert (Ha : (1 <= a)%N) by (vm_compute; discriminate)
    end; nia.
Qed.

Lemma print_lu_length (n : N) (k : nat) :
  (1 <= k)%nat -> (n < 10 ^ N.of_nat k)%N ->
  (length (print_lu n) <= k)%nat.
Proof.
  intros Hk Hn. unfold print_lu.
  pose proof (to_uint_normal n) as Hnorm.
  pose proof (print_lu_value n) as Hval. unfold print_lu in Hval.
  destruct (Decimal.nzhead (N.to_uint n)) eqn:Hhead.
  1: { unfold Decimal.unorm in Hnorm. rewrite Hhead in Hnorm.
       rewrite <- Hnorm. cbn. exact Hk. }
  all: assert (Hsame : Decimal.nzhead (N.to_uint n) = N.to_uint n)
         by (unfold Decimal.unorm in Hnorm; rewrite Hhead in Hnorm;
             rewrite Hhead; exact Hnorm);
       assert (Hlow := uint_value_lower (N.to_uint n));
       rewrite Hval in Hlow;
       assert (Hl : (10 ^ (N.of_nat
                             (length (cstr (NilEmpty.string_of_uint
                                              (N.to_uint n)))) - 1)
                     <= n)%N)
         by (apply Hlow;
             [rewrite <- Hsame, Hhead; discriminate
             | intros d'; rewrite <- Hsame;
               apply DecimalFacts.nzhead_nonzero]);
       assert (Hlt : (N.of_nat
                        (length (cstr (NilEmpty.string_of_uint
                                         (N.to_uint n)))) - 1
                      < N.of_nat k)%N)
         by (apply (N.pow_lt_mono_r_iff 10); [reflexivity|];
             apply N.le_lt_trans with (1 := Hl); exact Hn);
       lia.
Qed.

(** The file name of a synthesized path is accepted, with the card and
    the device reduced to [size_type]. *)
Lemma file_name_accepted `{Target} (card device : N) (suffix : ascii) :
  direction suffix ->
  parsed_name.make (pcm_file_name card device suffix)
  = parsed_name.mk true (to_size_type card) (to_size_type device)
      (suffix =? "c")%char.
Proof.
  intros Hdir. apply make_accepted.
  exists (print_lu (to_size_type card)),
         (print_lu (to_size_type device)), suffix.
  split; [reflexivity|].
  split; [apply print_lu_digits|].
  split; [apply print_lu_digits|].
  split; [exact Hdir|].
  rewrite !print_lu_value, !to_size_type_idem.
  repeat split.
Qed.

(** With 64 bits or fewer, both numbers have 20 digits at most and
    the path 55 characters at most: [snprintf] cuts nothing. *)
Lemma pcm_path_fits `{Target} (card device : N) (suffix : ascii) :
  (size_type_bits <= 64)%N ->
  pcm_path card device suffix
  = cstr "/dev/snd/" ++ pcm_file_name card device suffix
  /\ (length (pcm_path card device suffix) <= 55)%nat.
Proof.
  intros Hbits.
  assert (Hlen : forall x, (length (print_lu (to_size_type x)) <= 20)%nat).
  { intros x. apply print_lu_length; [lia|].
    apply N.lt_le_trans with (2 ^ size_type_bits)%N.
    - unfold to_size_type. apply N.mod_lt. apply N.pow_nonzero. discriminate.
    - apply N.le_trans with (2 ^ 64)%N.
      + apply N.pow_le_mono_r; [discriminate | exact Hbits].
      + vm_compute. discriminate. }
  assert (Hfit :
    (length (cstr "/dev/snd/" ++ pcm_file_name card device suffix) <= 55)%nat).
  { unfold pcm_file_name.
    repeat (rewrite length_app;
            cbn [length pcmC cstr list_ascii_of_string]).
    pose proof (Hlen card). pose proof (Hlen device). lia. }
  assert (Hpath : pcm_path card device suffix
                  = cstr "/dev/snd/" ++ pcm_file_name card device suffix).
  { unfold pcm_path.
    replace (cstr "/dev/snd/pcmC" ++ print_lu (to_size_type card)
             ++ cstr "D" ++ print_lu (to_size_type device) ++ [suffix])
      with (cstr "/dev/snd/" ++ pcm_file_name card device suffix)
      by reflexivity.
    apply firstn_all2. lia. }
  split; [exact Hpath | rewrite Hpath; exact Hfit].
Qed.

(** X1: when [size_type] has 64 bits or fewer, the 256 bytes of the
    buffer always hold the path: it has 55 characters at most and
    nothing is cut.  So for every card, device and direction the path
    that [open_capture_device] or [open_playback_device] synthesizes is
    [/dev/snd/] followed by a file name that the parser accepts, with
    the card, the device and the direction the path was made of. *)
Theorem path_never_truncated `{Target} (card device : N) (capture : bool) :
  (size_type_bits <= 64)%N ->
  let suffix := direction_suffix capture in
  pcm_path card device suffix
  = cstr "/dev/snd/" ++ pcm_file_name card device suffix
  /\ (length (pcm_path card device suffix) <= 55)%nat
  /\ parsed_name.make (pcm_file_name card device suffix)
     = parsed_name.mk true (to_size_type card) (to_size_type device) capture.
Proof.
  intros Hbits suffix.
  destruct (pcm_path_fits card device suffix Hbits) as [Hpath Hfit].
  split; [exact Hpath|]. split; [exact Hfit|].
  rewrite file_name_accepted
    by (subst suffix; destruct capture; [left | right]; reflexivity).
  subst suffix. destruct capture; reflexivity.
Qed.

(** X1, a run of the theorem: the largest card and device of 64-bit
    Linux. *)
Lemma path_never_truncated_witness :
  @pcm_path linux64 18446744073709551615 18446744073709551615 "p"
  = cstr "/dev/snd/pcmC18446744073709551615D18446744073709551615p"
  /\ (length (@pcm_path linux64 18446744073709551615 18446744073709551615 "p")
      <= 55)%nat
  /\ @parsed_name.make linux64
       (cstr "pcmC18446744073709551615D18446744073709551615p")
     = parsed_name.mk true 18446744073709551615 18446744073709551615 false.
Proof.
  exact (@path_never_truncated linux64 18446744073709551615
           18446744073709551615 false ltac:(vm_compute; discriminate)).
Defined.

(** ** More on the name parser *)

Lemma to_size_type_lt `{Target} (x : N) :
  (to_size_type x < 2 ^ size_type_bits)%N.
Proof.
  unfold to_size_type. apply N.mod_lt. apply N.pow_nonzero. discriminate.
Qed.

(** X2: a name the parser accepts has six characters or more, and the
    card and the device it leaves fit [size_type]. *)
Theorem accepted_name_bounds `{Target} (name : cstring) :
  parsed_name.valid (parsed_name.make name) = true ->
  (6 <= length name)%nat
  /\ (parsed_name.card (parsed_name.make name) < 2 ^ size_type_bits)%N
  /\ (parsed_name.device (parsed_name.make name) < 2 ^ size_type_bits)%N.
Proof.
  intros Hv. destruct (parsed_name.make name) as [v c d k] eqn:E.
  cbn [parsed_name.valid parsed_name.card parsed_name.device] in *. subst v.
  apply make_accepted in E.
  destruct E as (cs & ds & dir & -> & _ & _ & _ & -> & -> & _).
  split; [|split; apply to_size_type_lt].
  repeat (rewrite length_app; cbn [length pcmC cstr list_ascii_of_string]).
  lia.
Qed.

(** X2, a run of the theorem. *)
Lemma accepted_name_bounds_witness :
  (6 <= length (cstr "pcmC10D2c"))%nat
  /\ (parsed_name.card (@parsed_name.make linux64 (cstr "pcmC10D2c"))
      < 2 ^ 64)%N
  /\ (parsed_name.device (@parsed_name.make linux64 (cstr "pcmC10D2c"))
      < 2 ^ 64)%N.
Proof.
  apply (@accepted_name_bounds linux64 (cstr "pcmC10D2c")). reflexivity.
Defined.

Lemma decimal_value_zeros (n : nat) (cs : cstring) :
  decimal_value (repeat "0"%char n ++ cs) = decimal_value cs.
Proof.
  unfold decimal_value. rewrite fold_left_app. f_equal.
  induction n as [|n IH]; [reflexivity|]. exact IH.
Qed.

Lemma digits_zeros (n : nat) (cs : cstring) :
  digits cs -> digits (repeat "0"%char n ++ cs).
Proof.
  intros Hd. induction n as [|n IH]; [exact Hd|].
  constructor; [reflexivity | exact IH].
Qed.

(** X3: zeros in front of either digit run change nothing: the name is
    accepted with the same card, device and direction.  Names that differ
    in leading zeros only, or that leave a run empty where another has a
    zero, denote one device. *)
Theorem leading_zeros `{Target} (n m : nat) (cs ds : cstring) (dir : ascii) :
  digits cs -> digits ds -> direction dir ->
  parsed_name.make
    (pcmC ++ (repeat "0"%char n ++ cs)
     ++ "D"%char :: (repeat "0"%char m ++ ds) ++ [dir])
  = parsed_name.make (pcmC ++ cs ++ "D"%char :: ds ++ [dir])
  /\ parsed_name.valid (parsed_name.make (pcmC ++ cs ++ "D"%char :: ds ++ [dir]))
     = true.
Proof.
  intros Dcs Dds Hdir.
  assert (Hplain :
    parsed_name.make (pcmC ++ cs ++ "D"%char :: ds ++ [dir])
    = parsed_name.mk true (to_size_type (decimal_value cs))
        (to_size_type (decimal_value ds)) (dir =? "c")%char).
  { apply make_accepted. exists cs, ds, dir. repeat split; assumption. }
  rewrite Hplain. split; [|reflexivity].
  apply make_accepted.
  exists (repeat "0"%char n ++ cs), (repeat "0"%char m ++ ds), dir.
  rewrite !decimal_value_zeros.
  repeat split; try assumption; apply digits_zeros; assumption.
Qed.

(** X3, a run of the theorem: [pcmC007D01c] and [pcmC7D1c], and
    [pcmC0D0p] and [pcmCDp]. *)
Lemma leading_zeros_witness :
  @parsed_name.make linux64 (cstr "pcmC007D01c")
  = @parsed_name.make linux64 (cstr "pcmC7D1c")
  /\ @parsed_name.make linux64 (cstr "pcmC0D0p")
     = @parsed_name.make linux64 (cstr "pcmCDp").
Proof.
  split.
  - apply (@leading_zeros linux64 2 1 (cstr "7") (cstr "1") "c");
      [repeat constructor | repeat constructor | left; reflexivity].
  - apply (@leading_zeros linux64 1 1 [] [] "p");
      [constructor | constructor | right; reflexivity].
Defined.

(** X4: when [size_type] has 64 bits or fewer, the path a scan opens
    for an accepted entry is the canonical name of what the entry parses
    to: [/dev/snd/] followed by a file name, without leading zeros, that
    the parser accepts with the very fields of the entry. *)
Theorem implied_path_canonical `{Target} (d_name : cstring) :
  (size_type_bits <= 64)%N ->
  parsed_name.valid (parsed_name.make d_name) = true ->
  let name := parsed_name.make d_name in
  let file_name :=
    pcm_file_name (parsed_name.card name) (parsed_name.device name)
      (direction_suffix (parsed_name.is_capture name)) in
  implied_path d_name = cstr "/dev/snd/" ++ file_name
  /\ parsed_name.make file_name = name.
Proof.
  intros Hbits Hv name file_name. subst file_name. unfold implied_path.
  fold name in Hv |- *.
  split; [apply pcm_path_fits; exact Hbits|].
  destruct name as [v c d k] eqn:E.
  cbn [parsed_name.valid parsed_name.card parsed_name.device
       parsed_name.is_capture] in *.
  subst v.
  assert (Hc : to_size_type c = c /\ to_size_type d = d).
  { unfold name in E. apply make_accepted in E.
    destruct E as (cs & ds & dir & _ & _ & _ & _ & -> & -> & _).
    split; apply to_size_type_idem. }
  destruct Hc as [Hc Hd].
  rewrite file_name_accepted by (destruct k; [left | right]; reflexivity).
  rewrite Hc, Hd. destruct k; reflexivity.
Qed.

(** X4, a run of the theorem: the entry [pcmC007D01c] makes the scan
    open [/dev/snd/pcmC7D1c]. *)
Lemma implied_path_canonical_witness :
  @implied_path linux64 (cstr "pcmC007D01c") = cstr "/dev/snd/pcmC7D1c"
  /\ @parsed_name.make linux64 (cstr "pcmC7D1c")
     = @parsed_name.make linux64 (cstr "pcmC007D01c").
Proof.
  apply (@implied_path_canonical linux64 (cstr "pcmC007D01c")).
  - vm_compute. discriminate.
  - reflexivity.
Defined.

(** ** The snapshot of a device *)

Lemma memcpy_min_copied (dst src : list ascii) :
  copied_into dst src (memcpy_min dst src).
Proof.
  unfold copied_into, memcpy_min. cbv zeta.
  set (n := Nat.min (length dst) (length src)).
  assert (Hn : length (firstn n src) = n)
    by (rewrite length_firstn; unfold n; lia).
  split; [|split].
  - rewrite length_app, Hn, length_skipn. unfold n. lia.
  - rewrite <- Hn at 1. rewrite firstn_app, Nat.sub_diag, firstn_O, app_nil_r.
    rewrite firstn_all. reflexivity.
  - rewrite <- Hn at 1. rewrite skipn_app, Nat.sub_diag, skipn_all.
    reflexivity.
Qed.

(** X5: in the snapshot [to_tinyalsa_info] builds, each of the three
    text buffers keeps the capacity the header gives it, whatever the
    size of the native buffer: it holds the native bytes up to the
    smaller of the two sizes and its own initial bytes beyond.  Nothing
    is written past the end, and a native buffer of the same size is
    copied whole. *)
Theorem to_tinyalsa_info_buffers `{Target} (native_info : snd_pcm_info) :
  let out := to_tinyalsa_info native_info in
  copied_into (id pcm_info_init) (n_id native_info) (id out)
  /\ copied_into (name pcm_info_init) (n_name native_info) (name out)
  /\ copied_into (subname pcm_info_init) (n_subname native_info) (subname out)
  /\ (length (n_id native_info) = length (id pcm_info_init) ->
      id out = n_id native_info)
  /\ (length (n_name native_info) = length (name pcm_info_init) ->
      name out = n_name native_info)
  /\ (length (n_subname native_info) = length (subname pcm_info_init) ->
      subname out = n_subname native_info).
Proof.
  cbn zeta. unfold to_tinyalsa_info. cbn [id name subname].
  assert (Hsame : forall dst src : list ascii,
            length src = length dst -> memcpy_min dst src = src).
  { intros dst src Hlen. unfold memcpy_min. rewrite Hlen, Nat.min_id.
    rewrite <- Hlen at 1. rewrite firstn_all, skipn_all, app_nil_r.
    reflexivity. }
  repeat split; try apply memcpy_min_copied; intros Hlen; apply Hsame;
    exact Hlen.
Qed.

(** X5, a run of the theorem: the three-byte identifier of the small
    host in the 64 bytes of the Linux target. *)
Lemma to_tinyalsa_info_buffers_witness :
  length (id (@to_tinyalsa_info linux64 (toy_info 3))) = 64%nat
  /\ firstn 3 (id (@to_tinyalsa_info linux64 (toy_info 3))) = cstr "toy".
Proof.
  destruct (@to_tinyalsa_info_buffers linux64 (toy_info 3))
    as ((Hlen & Hfirst & _) & _).
  split; [exact Hlen | exact Hfirst].
Defined.

Ltac decide_codes :=
  repeat match goal with
         | |- context [Z.eqb ?a ?b] => destruct (Z.eqb_spec a b)
         | H : context [Z.eqb ?a ?b] |- _ => destruct (Z.eqb_spec a b)
         end.

(** X6: the translations lose nothing on the recognised codes: two
    native codes with the same class, other than [unknown], are the same
    code, and likewise for subclasses; [unknown] is the class of the
    unrecognised codes only. *)
Theorem class_translation_injective (a b : Z) :
  (to_tinyalsa_class a = to_tinyalsa_class b ->
   to_tinyalsa_class a <> class_unknown -> a = b)
  /\ (to_tinyalsa_subclass a = to_tinyalsa_subclass b ->
      to_tinyalsa_subclass a <> subclass_unknown -> a = b)
  /\ (to_tinyalsa_class a = class_unknown <->
      ~ In a [SNDRV_PCM_CLASS_GENERIC; SNDRV_PCM_CLASS_MULTI;
              SNDRV_PCM_CLASS_MODEM; SNDRV_PCM_CLASS_DIGITIZER])
  /\ (to_tinyalsa_subclass a = subclass_unknown <->
      ~ In a [SNDRV_PCM_SUBCLASS_GENERIC_MIX; SNDRV_PCM_SUBCLASS_MULTI_MIX]).
Proof.
  unfold to_tinyalsa_class, to_tinyalsa_subclass.
  split; [|split; [|split]].
  - decide_codes; intros Heq Hne; try discriminate Heq; try congruence.
  - decide_codes; intros Heq Hne; try discriminate Heq; try congruence.
  - decide_codes; split; intros Hu; try discriminate Hu;
      try (intros Hin; cbn [In] in Hin; intuition congruence);
      try (exfalso; apply Hu; cbn [In]; intuition congruence); reflexivity.
  - decide_codes; split; intros Hu; try discriminate Hu;
      try (intros Hin; cbn [In] in Hin; intuition congruence);
      try (exfalso; apply Hu; cbn [In]; intuition congruence); reflexivity.
Qed.

(** X6, a run of the theorem: the code 2 has the class of modems and
    is the code of modems; the code 4 is not recognised. *)
Lemma class_translation_injective_witness :
  to_tinyalsa_class 2 = to_tinyalsa_class SNDRV_PCM_CLASS_MODEM
  /\ to_tinyalsa_class 2 <> class_unknown
  /\ 2 = SNDRV_PCM_CLASS_MODEM
  /\ to_tinyalsa_class 4 = class_unknown.
Proof.
  split; [reflexivity|]. split; [discriminate|]. split.
  - apply (proj1 (class_translation_injective 2 SNDRV_PCM_CLASS_MODEM));
      [reflexivity | discriminate].
  - apply (proj1 (proj2 (proj2 (class_translation_injective 4 0)))).
    cbn [In]. intros [E|[E|[E|[E|[]]]]]; discriminate E.
Defined.

(** ** More on the handle *)

Section MoreHandle.

Context `{Target} `{Host}.

(** X7: when a handle has no implementation and the allocation fails,
    opening a device returns [ENOMEM] without a single call; the handle
    stays unallocated and not open, so that [prepare] on it still answers
    [ENOENT]. *)
Theorem open_out_of_memory (capture : bool) (p : pcm) (card device : N)
  (non_blocking : bool) (s : sys) :
  self p = None ->
  fst (host_alloc (kern s)) = false ->
  let '(r, p', s') := open_direction capture p card device non_blocking s in
  error r = ENOMEM
  /\ failed r = true
  /\ self p' = None
  /\ is_open p' = false
  /\ trace s' = trace s
  /\ fst (prepare p' s') = mk_result ENOENT.
Proof.
  intros Hnull Hfail.
  destruct capture; unfold open_direction, open_capture_device,
    open_playback_device, lazy_init, sys_alloc; rewrite Hnull;
    destruct (host_alloc (kern s)) as [ok w]; cbn [fst] in Hfail; subst ok;
    repeat split.
Qed.

(** Opening a device when the allocation and the [open] succeed. *)
Lemma open_direction_opened (capture : bool) (p : pcm) (impl : pcm_impl)
  (card device : N) (non_blocking : bool) (s : sys) :
  invalid_fd < 0 ->
  fst (lazy_init (self p) s) = Some impl ->
  let s1 := snd (lazy_init (self p) s) in
  let s0 := if fd impl =? invalid_fd then s1
            else snd (sys_close (fd impl) s1) in
  let path := pcm_path card device (direction_suffix capture) in
  let new_fd := fst (host_open path (open_flags non_blocking) (kern s0)) in
  0 <= new_fd ->
  let '(r, p', s') := open_direction capture p card device non_blocking s in
  error r = 0
  /\ failed r = false
  /\ is_open p' = true
  /\ get_file_descriptor p' = new_fd
  /\ trace s' = trace s0 ++ [ev_open path (open_flags non_blocking) new_fd]
  /\ open_flags non_blocking = (if non_blocking then 2050 else 2).
Proof.
  intros Hinv Hinit s1 s0 path new_fd Hok.
  assert (Hstep :
    open_direction capture p card device non_blocking s
    = let '(r, impl', s') := open_by_path impl path non_blocking s1 in
      (r, mk_pcm (Some impl'), s')).
  { subst path s1. destruct capture;
      unfold open_direction, open_capture_device, open_playback_device;
      destruct (lazy_init (self p) s) as [i sa]; cbn [fst snd] in *;
      subst i; reflexivity. }
  rewrite Hstep. unfold open_by_path. fold (open_flags non_blocking).
  replace (if negb (fd impl =? invalid_fd)
           then snd (sys_close (fd impl) s1) else s1) with s0
    by (unfold s0; destruct (fd impl =? invalid_fd); reflexivity).
  unfold sys_open. subst new_fd.
  destruct (host_open path (open_flags non_blocking) (kern s0)) as [ret w].
  cbn [fst] in *.
  assert (Hge : (ret <? 0) = false) by (apply Z.ltb_ge; exact Hok).
  rewrite Hge. unfold is_open, get_file_descriptor.
  cbn [self fd error failed log trace].
  assert (Hne : (ret =? invalid_fd) = false) by (apply Z.eqb_neq; lia).
  rewrite Hne. repeat split.
Qed.

(** X8: with a negative invalid descriptor, when the implementation is
    there (or its allocation succeeds) and the [open] issued after the
    [close] of the descriptor held, if any, answers a non-negative
    number, opening a device succeeds: the result is 0, the handle is
    open and its descriptor is the number answered.  The path opened
    ends in [c] for capture and in [p] for playback, and the flags are
    [O_RDWR], with [O_NONBLOCK] added when asked. *)
Theorem open_success (capture : bool) (p : pcm) (impl : pcm_impl)
  (card device : N) (non_blocking : bool) (s : sys) :
  invalid_fd < 0 ->
  fst (lazy_init (self p) s) = Some impl ->
  let s1 := snd (lazy_init (self p) s) in
  let s0 := if fd impl =? invalid_fd then s1
            else snd (sys_close (fd impl) s1) in
  let path := pcm_path card device (direction_suffix capture) in
  let new_fd := fst (host_open path (open_flags non_blocking) (kern s0)) in
  0 <= new_fd ->
  let '(r, p', s') := open_direction capture p card device non_blocking s in
  error r = 0
  /\ failed r = false
  /\ is_open p' = true
  /\ get_file_descriptor p' = new_fd
  /\ trace s' = trace s0 ++ [ev_open path (open_flags non_blocking) new_fd]
  /\ open_flags non_blocking = (if non_blocking then 2050 else 2).
Proof.
  intros Hinv Hinit s1 s0 path new_fd Hok.
  exact (open_direction_opened capture p impl card device non_blocking s
           Hinv Hinit Hok).
Qed.

(** X9: closing does not bring [ENOENT] back.  After [close] on a handle
    that has an implementation, the handle still has it, with the
    invalid descriptor; [prepare], [start], [drop] and [get_info] then
    issue their control call on the invalid descriptor, and return
    [errno] when the call answers a negative number and 0 when it answers
    0. *)
Theorem closed_handle_calls (p : pcm) (s : sys) :
  self p <> None ->
  let '(_, p', s1) := close p s in
  self p' <> None
  /\ get_file_descriptor p' = invalid_fd
  /\ Forall (fun '(op, request) =>
       exists ret,
         let '(code, p2, s2) := run_op op p' s1 in
         trace s2 = trace s1 ++ [ev_ioctl invalid_fd request ret]
         /\ p2 = p'
         /\ (ret < 0 -> code = errno (kern s2))
         /\ (ret = 0 -> code = 0))
      [(op_prepare, SNDRV_PCM_IOCTL_PREPARE);
       (op_start, SNDRV_PCM_IOCTL_START);
       (op_drop, SNDRV_PCM_IOCTL_DROP);
       (op_get_info, SNDRV_PCM_IOCTL_INFO)].
Proof.
  intros Halloc. destruct p as [[impl|]]; [|contradiction Halloc; reflexivity].
  assert (Hclosed : exists s1 code,
            close (mk_pcm (Some impl)) s
            = (code, mk_pcm (Some (mk_pcm_impl invalid_fd)), s1)).
  { unfold close. cbn [self].
    destruct (fd impl =? invalid_fd) eqn:Hfd; cbn [negb].
    - apply Z.eqb_eq in Hfd. destruct impl as [d]. cbn [fd] in Hfd. subst d.
      eexists. eexists. reflexivity.
    - destruct (sys_close (fd impl) s) as [ret s1].
      destruct (ret =? -1); eexists; eexists; reflexivity. }
  destruct Hclosed as (s1 & code & ->).
  split; [discriminate|]. split; [reflexivity|].
  assert (Hctl : forall request,
            exists ret,
              let '(r, s2) := control request
                                (mk_pcm (Some (mk_pcm_impl invalid_fd))) s1 in
              trace s2 = trace s1 ++ [ev_ioctl invalid_fd request ret]
              /\ (ret < 0 -> error r = errno (kern s2))
              /\ (ret = 0 -> error r = 0)).
  { intros request. unfold control, sys_ioctl. cbn [self fd].
    destruct (host_ioctl invalid_fd request (kern s1)) as [ret w].
    exists ret. destruct (Z.ltb_spec ret 0); cbn [log trace error];
      repeat split; intros; try reflexivity; lia. }
  repeat constructor.
  - destruct (Hctl SNDRV_PCM_IOCTL_PREPARE) as [ret Hr]. exists ret.
    cbn [run_op].
    change (prepare ?q ?t) with (control SNDRV_PCM_IOCTL_PREPARE q t).
    destruct (control _ _ s1) as [r s2]. intuition.
  - destruct (Hctl SNDRV_PCM_IOCTL_START) as [ret Hr]. exists ret.
    cbn [run_op].
    change (start ?q ?t) with (control SNDRV_PCM_IOCTL_START q t).
    destruct (control _ _ s1) as [r s2]. intuition.
  - destruct (Hctl SNDRV_PCM_IOCTL_DROP) as [ret Hr]. exists ret.
    cbn [run_op].
    change (drop ?q ?t) with (control SNDRV_PCM_IOCTL_DROP q t).
    destruct (control _ _ s1) as [r s2]. intuition.
  - cbn [run_op]. unfold get_info, sys_ioctl_info. cbn [self fd].
    destruct (host_ioctl_info invalid_fd (kern s1)) as [[ret info] w].
    exists ret. destruct (Z.eqb_spec ret 0); cbn [negb gr_error log trace];
      repeat split; intros; try reflexivity; lia.
Qed.

(** X10: an implementation, once allocated, stays: none of the
    operations of a handle (the two opens, [close], [prepare], [setup],
    [start], [drop], [get_info], [read_unformatted]) takes it away, so
    after the first open whose allocation succeeded the test that
    answers [ENOENT] never fires again on that handle; and only an open
    gives an implementation to a handle that has none. *)
Theorem allocated_stays_allocated :
  (forall ops p s,
     self p <> None -> self (fst (run_ops ops p s)) <> None)
  /\ (forall op p s,
        self p = None ->
        self (snd (fst (run_op op p s))) <> None ->
        exists card device non_blocking,
          op = op_open_capture_device card device non_blocking
          \/ op = op_open_playback_device card device non_blocking).
Proof.
  assert (Hopen : forall suffix p c d nb s,
            self p <> None ->
            self (snd (fst (open_device suffix p c d nb s))) <> None).
  { intros suffix [[impl|]] c d nb s Hp; [|contradiction Hp; reflexivity].
    unfold open_device, lazy_init. cbn [self].
    destruct (open_by_path impl _ nb s) as [[r impl'] s']. discriminate. }
  assert (Hone : forall op p s,
            self p <> None -> self (snd (fst (run_op op p s))) <> None).
  { intros op p s Hp.
    destruct op as [c d nb|c d nb| | | | | | |frames frame_count];
      cbn [run_op].
    - pose proof (Hopen "c"%char p c d nb s Hp) as Ho.
      change (open_capture_device p c d nb s)
        with (open_device "c" p c d nb s).
      destruct (open_device "c" p c d nb s) as [[r p'] s']. exact Ho.
    - pose proof (Hopen "p"%char p c d nb s Hp) as Ho.
      change (open_playback_device p c d nb s)
        with (open_device "p" p c d nb s).
      destruct (open_device "p" p c d nb s) as [[r p'] s']. exact Ho.
    - destruct p as [[impl|]]; [|contradiction Hp; reflexivity].
      unfold close. cbn [self].
      destruct (negb (fd impl =? invalid_fd)); [|discriminate].
      destruct (sys_close (fd impl) s) as [ret s1].
      destruct (ret =? -1); discriminate.
    - destruct (prepare p s). exact Hp.
    - exact Hp.
    - destruct (start p s). exact Hp.
    - destruct (drop p s). exact Hp.
    - destruct (get_info p s). exact Hp.
    - destruct (read_unformatted p frames frame_count s). exact Hp. }
  split.
  - induction ops as [|op ops IH]; intros p s Hp; [exact Hp|].
    cbn [run_ops]. pose proof (Hone op p s Hp) as Hn.
    destruct (run_op op p s) as [[code p1] s1]. apply IH. exact Hn.
  - intros op [[impl|]] s Hnull Hafter; [discriminate Hnull|].
    destruct op as [c d nb|c d nb| | | | | | |frames frame_count];
      try (exists c, d, nb; tauto); exfalso; apply Hafter; cbn [run_op].
    + reflexivity.
    + reflexivity.
    + reflexivity.
    + reflexivity.
    + reflexivity.
    + reflexivity.
    + destruct (read_unformatted _ frames frame_count s). reflexivity.
Qed.

(** X11: moving a handle transfers the descriptor: the new handle is
    what the old one was, the old one is left without implementation, so
    that closing or destroying it costs no call; destroying both closes
    the descriptor once and leaves none live. *)
Theorem move_transfers_ownership (p : pcm) (s : sys) :
  let '(q, p') := pcm_move p in
  q = p
  /\ self p' = None
  /\ is_open p' = false
  /\ get_file_descriptor p' = invalid_fd
  /\ close p' s = (0, p', s)
  /\ pcm_delete p' s = s
  /\ (live_fds (trace s) = wrapped p ->
      live_fds (trace (pcm_delete p' (pcm_delete q s))) = []).
Proof.
  destruct p as [i]. cbn [pcm_move self].
  repeat split.
  intros Hlive. unfold pcm_delete at 1. cbn [close self].
  pose proof (close_wrapped (mk_pcm i) s Hlive) as Hc. unfold pcm_delete.
  destruct (close (mk_pcm i) s) as [[code p2] s2]. apply Hc.
Qed.

(** X16: reading after a successful open of the reader.  When
    [interleaved_pcm_reader::open] succeeds as above, the path opened is
    the capture path, and [read_unformatted] issues its frame-read call
    on the descriptor that [open] answered; the read succeeds when the
    call answers 0 and is [EINVAL] with no frame otherwise. *)
Theorem reader_open_then_read (p : pcm) (impl : pcm_impl)
  (card device : N) (non_blocking : bool) (frames : Z) (frame_count : N)
  (s : sys) :
  invalid_fd < 0 ->
  fst (lazy_init (self p) s) = Some impl ->
  let s1 := snd (lazy_init (self p) s) in
  let s0 := if fd impl =? invalid_fd then s1
            else snd (sys_close (fd impl) s1) in
  let path := pcm_path card device "c" in
  let new_fd := fst (host_open path (open_flags non_blocking) (kern s0)) in
  0 <= new_fd ->
  let '(_, p', s') :=
    interleaved_pcm_reader_open p card device non_blocking s in
  exists ret,
    let '(r, s2) := read_unformatted p' frames frame_count s' in
    trace s2 = trace s0 ++ [ev_open path (open_flags non_blocking) new_fd;
                            ev_ioctl new_fd SNDRV_PCM_IOCTL_READI_FRAMES ret]
    /\ (ret = 0 -> gr_failed r = false)
    /\ (ret <> 0 -> r = mk_generic_result EINVAL 0%N).
Proof.
  intros Hinv Hinit s1 s0 path new_fd Hok.
  pose proof (open_direction_opened true p impl card device non_blocking s
                Hinv Hinit Hok) as Ho.
  change (interleaved_pcm_reader_open p card device non_blocking s)
    with (open_direction true p card device non_blocking s).
  destruct (open_direction true p card device non_blocking s)
    as [[r p'] s'].
  destruct Ho as (_ & _ & _ & Hfd & Ht & _).
  cbn [direction_suffix] in Hfd, Ht. fold path in Hfd, Ht.
  fold s1 in Hfd, Ht. fold s0 in Hfd, Ht. fold new_fd in Hfd, Ht.
  unfold read_unformatted, sys_ioctl_readi. rewrite Hfd.
  destruct (host_ioctl_readi new_fd _ (kern s')) as [[ret transfer] w].
  exists ret.
  destruct (Z.eqb_spec ret 0); cbn [negb log trace];
    (split; [rewrite Ht, <- app_assoc; reflexivity|]);
    split; intros; try reflexivity; congruence.
Qed.

End MoreHandle.

(** ** More on the PCM list *)

Section MoreList.

Context `{Target} `{Host}.

Lemma issues_refl (P : event -> Prop) (s : sys) : issues P s s.
Proof. exists []. split; [symmetry; apply app_nil_r | constructor]. Qed.

Lemma issues_trans (P : event -> Prop) (s1 s2 s3 : sys) :
  issues P s1 s2 -> issues P s2 s3 -> issues P s1 s3.
Proof.
  intros (d1 & H1 & F1) (d2 & H2 & F2). exists (d1 ++ d2). split.
  - rewrite H2, H1, app_assoc. reflexivity.
  - apply Forall_app. split; assumption.
Qed.

Lemma issues_log (P : event -> Prop) (w : world) (s : sys) (e : event) :
  P e -> issues P s (log w s e).
Proof. intros He. exists [e]. split; [reflexivity | repeat constructor; exact He]. Qed.

Lemma issues_alloc (P : event -> Prop) (s : sys) :
  issues P s (snd (sys_alloc s)).
Proof.
  exists []. split; [|constructor].
  rewrite trace_sys_alloc, app_nil_r. reflexivity.
Qed.

Lemma issues_close (P : event -> Prop) (p : pcm) (s : sys) :
  (forall d ret, P (ev_close d ret)) ->
  issues P s (snd (close p s)).
Proof.
  intros HP. unfold close. destruct (self p) as [impl|]; [|apply issues_refl].
  destruct (negb (fd impl =? invalid_fd)); [|apply issues_refl].
  unfold sys_close. destruct (host_close (fd impl) (kern s)) as [ret w].
  destruct (ret =? -1); cbn [snd]; apply issues_log, HP.
Qed.

Lemma issues_delete (P : event -> Prop) (p : pcm) (s : sys) :
  (forall d ret, P (ev_close d ret)) ->
  issues P s (pcm_delete p s).
Proof.
  intros HP. pose proof (issues_close P p s HP) as Hc. unfold pcm_delete.
  destruct (close p s) as [[code p'] s']. exact Hc.
Qed.

Lemma issues_get_info (P : event -> Prop) (p : pcm) (s : sys) :
  (forall d ret, P (ev_ioctl d SNDRV_PCM_IOCTL_INFO ret)) ->
  issues P s (snd (get_info p s)).
Proof.
  intros HP. unfold get_info, sys_ioctl_info.
  destruct (self p) as [impl|]; [|apply issues_refl].
  destruct (host_ioctl_info (fd impl) (kern s)) as [[ret info] w].
  destruct (negb (ret =? 0)); cbn [snd]; apply issues_log, HP.
Qed.

(** Opening on a new handle: no [close], one [open] at most. *)
Lemma issues_open_new (P : event -> Prop) (suffix : ascii) (card device : N)
  (non_blocking : bool) (s : sys) :
  (forall ret,
     P (ev_open (pcm_path card device suffix) (open_flags non_blocking) ret)) ->
  issues P s (snd (open_device suffix pcm_new card device non_blocking s)).
Proof.
  intros HP. unfold open_device, lazy_init. cbn [pcm_new self].
  pose proof (issues_alloc P s) as Ha.
  destruct (sys_alloc s) as [ok s1]. cbn [snd] in Ha.
  destruct ok; [|exact Ha].
  apply issues_trans with (1 := Ha).
  destruct (open_by_path_calls (mk_pcm_impl invalid_fd)
              (pcm_path card device suffix) non_blocking s1)
    as (closed & ret & Hc).
  destruct (open_by_path _ _ non_blocking s1) as [[r impl'] s'].
  destruct Hc as (Hclosed & Ht & _). cbn [fd] in Hclosed.
  rewrite Z.eqb_refl in Hclosed. subst closed.
  exists [ev_open (pcm_path card device suffix) (open_flags non_blocking) ret].
  split; [exact Ht | repeat constructor; apply HP].
Qed.

Lemma probe_event_cons (d_name : cstring) (entries : list cstring) (e : event) :
  probe_event entries e -> probe_event (d_name :: entries) e.
Proof.
  destruct e; cbn [probe_event]; try tauto.
  intros (Hf & d & Hin & Hv & Hp). split; [exact Hf|].
  exists d. split; [right; exact Hin | split; assumption].
Qed.

Lemma issues_probe_cons (d_name : cstring) (entries : list cstring)
  (s s' : sys) :
  issues (probe_event entries) s s' ->
  issues (probe_event (d_name :: entries)) s s'.
Proof.
  intros (delta & Ht & Hf). exists delta. split; [exact Ht|].
  apply Forall_impl with (2 := Hf). apply probe_event_cons.
Qed.

Lemma scan_entries_issues (entries : list cstring) (info_vec : list pcm_info)
  (s : sys) :
  issues (probe_event entries) s (snd (scan_entries entries info_vec s)).
Proof.
  revert info_vec s.
  induction entries as [|d_name entries IH]; intros info_vec s.
  - apply issues_refl.
  - cbn [scan_entries]. unfold non_blocking_default.
    set (P := probe_event (d_name :: entries)).
    assert (Hrest : forall v t,
              issues P t (snd (scan_entries entries v t)))
      by (intros v t; apply issues_probe_cons, IH).
    assert (Hclose : forall d ret, P (ev_close d ret)) by (intros; exact I).
    assert (Hinfo : forall d ret, P (ev_ioctl d SNDRV_PCM_IOCTL_INFO ret))
      by (intros; reflexivity).
    destruct (parsed_name.valid (parsed_name.make d_name)) eqn:Hv;
      cbn [negb]; [|apply Hrest].
    assert (Hopen : forall ret,
              P (ev_open (implied_path d_name) (open_flags false) ret)).
    { intros ret. split; [reflexivity|]. exists d_name.
      split; [left; reflexivity | split; [exact Hv | reflexivity]]. }
    assert (Hopened : forall t,
      issues P t
        (snd (if parsed_name.is_capture (parsed_name.make d_name)
              then open_capture_device pcm_new
                     (parsed_name.card (parsed_name.make d_name))
                     (parsed_name.device (parsed_name.make d_name)) false t
              else open_playback_device pcm_new
                     (parsed_name.card (parsed_name.make d_name))
                     (parsed_name.device (parsed_name.make d_name)) false t))).
    { intros t. unfold implied_path in Hopen.
      destruct (parsed_name.is_capture (parsed_name.make d_name));
        cbn [direction_suffix] in Hopen.
      - apply (issues_open_new P "c"). exact Hopen.
      - apply (issues_open_new P "p"). exact Hopen. }
    specialize (Hopened s).
    destruct (if parsed_name.is_capture (parsed_name.make d_name)
              then _ else _) as [[r p] s1].
    cbn [snd] in Hopened.
    destruct (failed r).
    { apply issues_trans with (1 := Hopened).
      apply issues_trans with (2 := Hrest _ _).
      apply issues_delete, Hclose. }
    pose proof (issues_get_info P p s1 Hinfo) as Hg.
    destruct (get_info p s1) as [info s2]. cbn [snd] in Hg.
    assert (H12 : issues P s s2)
      by (apply issues_trans with (1 := Hopened); exact Hg).
    destruct (gr_failed info).
    { apply issues_trans with (1 := H12).
      apply issues_trans with (2 := Hrest _ _).
      apply issues_delete, Hclose. }
    unfold emplace_back.
    pose proof (issues_alloc P s2) as Ha.
    destruct (sys_alloc s2) as [ok s3]. cbn [snd] in Ha.
    assert (H13 : issues P s (pcm_delete p s3)).
    { apply issues_trans with (1 := H12).
      apply issues_trans with (1 := Ha).
      apply issues_delete, Hclose. }
    destruct ok; [|exact H13].
    apply issues_trans with (1 := H13). apply Hrest.
Qed.

(** X12: the calls of a construction.  When the storage of the list
    cannot be allocated, none.  Otherwise [opendir] on [/dev/snd]; when
    it fails, nothing more; when it succeeds, [closedir] comes last, and
    in between there is nothing but probing: [open], blocking, of the
    path implied by an entry whose name the parser accepts, the [INFO]
    control call, and [close].  No other path is opened and no other
    control call is issued. *)
Theorem pcm_list_calls (s : sys) :
  let '(l, s') := pcm_list_new s in
  let '(ok, s0) := sys_alloc s in
  if ok then
    match host_opendir (cstr "/dev/snd") (kern s0) with
    | (Some entries, _) =>
        exists delta,
          trace s' = trace s ++ [ev_opendir (cstr "/dev/snd") true]
                     ++ delta ++ [ev_closedir]
          /\ Forall (probe_event entries) delta
    | (None, _) =>
        trace s' = trace s ++ [ev_opendir (cstr "/dev/snd") false]
        /\ data l = []
    end
  else trace s' = trace s /\ list_self l = None.
Proof.
  unfold pcm_list_new.
  pose proof (trace_sys_alloc s) as Ha.
  destruct (sys_alloc s) as [ok s0]. cbn [snd] in Ha.
  destruct ok; cbn [negb]; [|split; [exact Ha | reflexivity]].
  unfold sys_opendir.
  destruct (host_opendir (cstr "/dev/snd") (kern s0)) as [[entries|] w].
  - pose proof (scan_entries_issues entries []
                  (log w s0 (ev_opendir (cstr "/dev/snd") true)))
      as (delta & Ht & Hf).
    destruct (scan_entries entries [] _) as [info_vec s2].
    cbn [snd] in Ht. exists delta. split; [|exact Hf].
    unfold sys_closedir. cbn [log trace]. rewrite Ht. cbn [log trace].
    rewrite Ha, <- !app_assoc. reflexivity.
  - cbn [log trace data list_self]. rewrite Ha. split; reflexivity.
Qed.

(** The framed forms of the invariant of the handle: other live
    descriptors, [others], stay as they are. *)
Lemma open_by_path_framed (impl : pcm_impl) (path : cstring)
  (non_blocking : bool) (s : sys) (others : list Z) :
  invalid_fd < 0 ->
  live_fds (trace s) = wrapped (mk_pcm (Some impl)) ++ others ->
  let '(_, impl', s') := open_by_path impl path non_blocking s in
  live_fds (trace s') = wrapped (mk_pcm (Some impl')) ++ others.
Proof.
  intros Hinv Hlive.
  destruct (open_by_path_calls impl path non_blocking s)
    as (closed & ret & Hc).
  destruct (open_by_path impl path non_blocking s) as [[r impl'] s'].
  destruct Hc as (Hclosed & Ht & Himpl & _).
  rewrite Ht, app_assoc, live_fds_snoc. cbn [live_step].
  assert (Hmid : live_fds (trace s ++ closed) = others).
  { rewrite wrapped_impl in Hlive. subst closed.
    destruct (fd impl =? invalid_fd).
    - rewrite app_nil_r. exact Hlive.
    - rewrite live_fds_snoc, Hlive. cbn [live_step app remove_one].
      rewrite Z.eqb_refl. reflexivity. }
  rewrite Hmid. subst impl'.
  destruct (Z.ltb_spec ret 0).
  - rewrite wrapped_closed. reflexivity.
  - rewrite wrapped_open by lia. reflexivity.
Qed.

Lemma open_new_framed (suffix : ascii) (card device : N)
  (non_blocking : bool) (s : sys) :
  invalid_fd < 0 ->
  let '(_, p', s') := open_device suffix pcm_new card device non_blocking s in
  live_fds (trace s') = wrapped p' ++ live_fds (trace s).
Proof.
  intros Hinv. unfold open_device, lazy_init. cbn [pcm_new self].
  pose proof (trace_sys_alloc s) as Ha.
  destruct (sys_alloc s) as [ok s0]. cbn [snd] in Ha.
  destruct ok; [|rewrite Ha; reflexivity].
  assert (Hl0 : live_fds (trace s0)
                = wrapped (mk_pcm (Some (mk_pcm_impl invalid_fd)))
                  ++ live_fds (trace s))
    by (rewrite Ha, wrapped_closed; reflexivity).
  pose proof (open_by_path_framed (mk_pcm_impl invalid_fd)
                (pcm_path card device suffix) non_blocking s0 _ Hinv Hl0)
    as Hw.
  destruct (open_by_path _ _ non_blocking s0) as [[r impl'] s'].
  exact Hw.
Qed.

Lemma delete_framed (p : pcm) (s : sys) (others : list Z) :
  live_fds (trace s) = wrapped p ++ others ->
  live_fds (trace (pcm_delete p s)) = others.
Proof.
  intros Hlive. unfold pcm_delete, close.
  destruct p as [[impl|]]; cbn [self]; [|exact Hlive].
  rewrite wrapped_impl in Hlive.
  destruct (fd impl =? invalid_fd) eqn:Hfd; cbn [negb]; [exact Hlive|].
  pose proof (trace_sys_close (fd impl) s) as Ht.
  destruct (sys_close (fd impl) s) as [ret s1]. cbn [fst snd] in Ht.
  assert (Hl : live_fds (trace s1) = others).
  { rewrite Ht, live_fds_snoc, Hlive. cbn [live_step app remove_one].
    rewrite Z.eqb_refl. reflexivity. }
  destruct (ret =? -1); exact Hl.
Qed.

Lemma scan_entries_live (entries : list cstring) (info_vec : list pcm_info)
  (s : sys) :
  invalid_fd < 0 ->
  live_fds (trace (snd (scan_entries entries info_vec s)))
  = live_fds (trace s).
Proof.
  intros Hinv. revert info_vec s.
  induction entries as [|d_name entries IH]; intros info_vec s;
    [reflexivity|].
  cbn [scan_entries]. unfold non_blocking_default.
  destruct (parsed_name.valid (parsed_name.make d_name)); cbn [negb];
    [|apply IH].
  assert (Hopened :
    let '(_, p', s') :=
      (if parsed_name.is_capture (parsed_name.make d_name)
       then open_capture_device pcm_new
              (parsed_name.card (parsed_name.make d_name))
              (parsed_name.device (parsed_name.make d_name)) false s
       else open_playback_device pcm_new
              (parsed_name.card (parsed_name.make d_name))
              (parsed_name.device (parsed_name.make d_name)) false s) in
    live_fds (trace s') = wrapped p' ++ live_fds (trace s)).
  { destruct (parsed_name.is_capture (parsed_name.make d_name)).
    - apply (open_new_framed "c"). exact Hinv.
    - apply (open_new_framed "p"). exact Hinv. }
  destruct (if parsed_name.is_capture (parsed_name.make d_name)
            then _ else _) as [[r p] s1].
  destruct (failed r).
  { rewrite IH. apply delete_framed. exact Hopened. }
  pose proof (get_info_trace p s1) as Hg.
  destruct (get_info p s1) as [info s2]. cbn [snd] in Hg.
  rewrite <- Hg in Hopened.
  destruct (gr_failed info).
  { rewrite IH. apply delete_framed. exact Hopened. }
  unfold emplace_back.
  pose proof (trace_sys_alloc s2) as Ha.
  destruct (sys_alloc s2) as [ok s3]. cbn [snd] in Ha.
  rewrite <- Ha in Hopened.
  destruct ok; cbn [snd]; [rewrite IH|]; apply delete_framed; exact Hopened.
Qed.

(** X13: with a negative invalid descriptor, a construction leaves no
    descriptor behind: whatever the host answers, the descriptors live
    after it are those that were live before it.  Every device opened
    for probing is closed again, on every path out of the loop. *)
Theorem pcm_list_no_leak (s : sys) :
  invalid_fd < 0 ->
  live_fds (trace (snd (pcm_list_new s))) = live_fds (trace s).
Proof.
  intros Hinv. unfold pcm_list_new.
  pose proof (trace_sys_alloc s) as Ha.
  destruct (sys_alloc s) as [ok s0]. cbn [snd] in Ha.
  destruct ok; cbn [negb snd]; [|rewrite Ha; reflexivity].
  unfold sys_opendir.
  destruct (host_opendir (cstr "/dev/snd") (kern s0)) as [[entries|] w].
  - pose proof (scan_entries_live entries []
                  (log w s0 (ev_opendir (cstr "/dev/snd") true)) Hinv) as Hl.
    destruct (scan_entries entries [] _) as [info_vec s2].
    cbn [snd] in *. unfold sys_closedir. cbn [log trace].
    rewrite live_fds_snoc. cbn [live_step]. rewrite Hl. cbn [log trace].
    rewrite live_fds_snoc, Ha. reflexivity.
  - cbn [snd log trace]. rewrite live_fds_snoc, Ha. reflexivity.
Qed.

Lemma enumeration_bound (entries : list cstring) (s : sys) :
  (length (enumeration entries s) <= length (accepted_entries entries))%nat.
Proof.
  unfold enumeration. revert s.
  induction entries as [|d_name entries IH]; intros s; [apply le_n|].
  cbn [outcomes accepted_entries filter].
  destruct (parsed_name.valid (parsed_name.make d_name)) eqn:Hv.
  - destruct (candidate d_name s) as [[snapshot refused] s1].
    cbn [until_refused]. destruct refused; [cbn; lia|].
    cbn [snapshots flat_map fst]. rewrite length_app.
    specialize (IH s1). unfold snapshots, accepted_entries in IH.
    destruct snapshot; cbn [length]; lia.
  - rewrite (candidate_rejected d_name s Hv).
    cbn [until_refused snapshots flat_map fst app]. apply IH.
Qed.

(** The loop only appends, and never more than one snapshot for an
    accepted entry. *)
Lemma scan_entries_bound (entries : list cstring)
  (info_vec : list pcm_info) (s : sys) :
  let result := fst (scan_entries entries info_vec s) in
  firstn (length info_vec) result = info_vec
  /\ (length result
      <= length info_vec + length (accepted_entries entries))%nat.
Proof.
  cbn zeta. rewrite scan_entries_enumeration.
  pose proof (enumeration_bound entries s) as Hb.
  rewrite length_app. split; [|lia].
  rewrite firstn_app, Nat.sub_diag, firstn_O, app_nil_r.
  apply firstn_all.
Qed.

(** A directory in which no name is accepted costs the loop nothing. *)
Lemma scan_without_names (entries : list cstring)
  (info_vec : list pcm_info) (s : sys) :
  accepted_entries entries = [] ->
  scan_entries entries info_vec s = (info_vec, s).
Proof.
  induction entries as [|d_name entries IH]; intros Hnone; [reflexivity|].
  cbn [scan_entries]. cbn [accepted_entries filter] in Hnone.
  destruct (parsed_name.valid (parsed_name.make d_name));
    [discriminate Hnone|].
  apply IH. exact Hnone.
Qed.

(** X14: the list never holds more snapshots than the directory has
    entries whose name the parser accepts (so never more than it has
    entries), and [size] is the number of snapshots [data] points to; the
    list is empty when its storage or the directory cannot be had. *)
Theorem pcm_list_size_bound (s : sys) :
  let '(l, s') := pcm_list_new s in
  let '(ok, s0) := sys_alloc s in
  size l = N.of_nat (length (data l))
  /\ if ok then
       match host_opendir (cstr "/dev/snd") (kern s0) with
       | (Some entries, _) =>
           (size l <= N.of_nat (length (accepted_entries entries)))%N
           /\ (size l <= N.of_nat (length entries))%N
       | (None, _) => size l = 0%N
       end
     else size l = 0%N.
Proof.
  unfold pcm_list_new.
  destruct (sys_alloc s) as [ok s0].
  destruct ok; cbn [negb]; [|split; reflexivity].
  unfold sys_opendir.
  destruct (host_opendir (cstr "/dev/snd") (kern s0)) as [[entries|] w];
    [|split; reflexivity].
  pose proof (scan_entries_bound entries []
                (log w s0 (ev_opendir (cstr "/dev/snd") true))) as [_ Hb].
  destruct (scan_entries entries [] _) as [info_vec s2].
  cbn [fst length] in Hb. cbn [size data list_self].
  pose proof (filter_length_le
                (fun d_name => parsed_name.valid (parsed_name.make d_name))
                entries) as Hf.
  fold (accepted_entries entries) in Hf.
  split; [reflexivity|]. split; lia.
Qed.

(** X15: when the parser accepts none of the names of the directory,
    the construction issues [opendir] and [closedir] and nothing else,
    and the list is empty. *)
Theorem pcm_list_without_names (s : sys) (entries : list cstring) :
  fst (sys_alloc s) = true ->
  fst (host_opendir (cstr "/dev/snd") (kern (snd (sys_alloc s))))
  = Some entries ->
  accepted_entries entries = [] ->
  let '(l, s') := pcm_list_new s in
  data l = []
  /\ size l = 0%N
  /\ trace s' = trace s ++ [ev_opendir (cstr "/dev/snd") true; ev_closedir].
Proof.
  intros Hok Hdir Hnone. unfold pcm_list_new.
  pose proof (trace_sys_alloc s) as Ha.
  destruct (sys_alloc s) as [ok s0]. cbn [fst snd] in *. subst ok.
  cbn [negb]. unfold sys_opendir.
  destruct (host_opendir (cstr "/dev/snd") (kern s0)) as [dir w].
  cbn [fst] in Hdir. subst dir.
  rewrite (scan_without_names entries [] _ Hnone).
  unfold sys_closedir. cbn [log trace data size list_self length].
  rewrite Ha, <- app_assoc. repeat split.
Qed.

End MoreList.

(** ** Further concrete runs *)

(** X7, a run of the theorem: the small host without memory. *)
Lemma open_out_of_memory_witness :
  let '(r, p', s') :=
    @open_direction linux64 toy_host true pcm_new 0 0 false
      toy_exhausted_sys in
  error r = ENOMEM
  /\ failed r = true
  /\ self p' = None
  /\ @is_open linux64 p' = false
  /\ trace s' = trace toy_exhausted_sys
  /\ fst (@prepare toy_host p' s') = mk_result ENOENT.
Proof.
  apply (@open_out_of_memory linux64 toy_host true pcm_new 0 0 false
           toy_exhausted_sys); reflexivity.
Defined.

(** X8, a run of the theorem: a new handle opens the playback device of
    card 1, device 2, without blocking, and gets descriptor 3. *)
Lemma open_success_witness :
  let '(r, p', s') :=
    @open_direction linux64 toy_host false pcm_new 1 2 true toy_sys in
  error r = 0
  /\ @is_open linux64 p' = true
  /\ @get_file_descriptor linux64 p' = 3
  /\ trace s' = [ev_open (cstr "/dev/snd/pcmC1D2p") 2050 3].
Proof.
  pose proof (@open_success linux64 toy_host false pcm_new
                (mk_pcm_impl (-1)) 1 2 true toy_sys eq_refl eq_refl) as Hw.
  cbv zeta in Hw.
  specialize (Hw ltac:(vm_compute; discriminate)).
  destruct (@open_direction linux64 toy_host false pcm_new 1 2 true toy_sys)
    as [[r p'] s'].
  destruct Hw as (He & _ & Ho & Hfd & Ht & _).
  split; [exact He|]. split; [exact Ho|]. split; [exact Hfd | exact Ht].
Defined.

(** X9, a run of the theorem: the handle open on descriptor 3 is
    closed. *)
Lemma closed_handle_calls_witness :
  let p := mk_pcm (Some (mk_pcm_impl 3)) in
  self p <> None
  /\ let '(_, p', s1) := @close linux64 toy_host p toy_open_sys in
     self p' <> None /\ @get_file_descriptor linux64 p' = -1.
Proof.
  split; [discriminate|].
  pose proof (@closed_handle_calls linux64 toy_host
                (mk_pcm (Some (mk_pcm_impl 3))) toy_open_sys
                ltac:(discriminate)) as Hw.
  destruct (@close linux64 toy_host (mk_pcm (Some (mk_pcm_impl 3)))
              toy_open_sys) as [[code p'] s1].
  destruct Hw as (Ha & Hb & _). split; [exact Ha | exact Hb].
Defined.

(** X10, a run of the theorem: close, a failing open, close. *)
Lemma allocated_stays_allocated_witness :
  self (fst (@run_ops linux64 toy_host
               [op_close; op_open_capture_device 9 9 false; op_close]
               (mk_pcm (Some (mk_pcm_impl 3))) toy_open_sys)) <> None.
Proof.
  apply (proj1 (@allocated_stays_allocated linux64 toy_host)).
  discriminate.
Defined.

(** X11, a run of the theorem: the handle open on descriptor 3 is moved
    and both handles are destroyed. *)
Lemma move_transfers_ownership_witness :
  let '(q, p') := pcm_move (mk_pcm (Some (mk_pcm_impl 3))) in
  live_fds (trace toy_open_sys) = [3]
  /\ live_fds (trace (@pcm_delete linux64 toy_host p'
                        (@pcm_delete linux64 toy_host q toy_open_sys))) = [].
Proof.
  pose proof (@move_transfers_ownership linux64 toy_host
                (mk_pcm (Some (mk_pcm_impl 3))) toy_open_sys) as Hw.
  cbn [pcm_move self] in Hw |- *.
  destruct Hw as (_ & _ & _ & _ & _ & _ & Hlive).
  split; [reflexivity|]. apply Hlive. reflexivity.
Defined.

(** X13, a run of the theorem on the directory of the small host. *)
Lemma pcm_list_no_leak_witness :
  @invalid_fd linux64 < 0
  /\ live_fds (trace (snd (@pcm_list_new linux64 toy_host toy_sys))) = [].
Proof.
  split; [reflexivity|].
  exact (@pcm_list_no_leak linux64 toy_host toy_sys eq_refl).
Defined.

(** X15, a run of the theorem: a directory with [controlC0], [timer]
    and [pcmC0D0]. *)
Lemma pcm_list_without_names_witness :
  let '(l, s') := @pcm_list_new linux64 toy_host toy_plain_sys in
  data l = []
  /\ size l = 0%N
  /\ trace s' = [ev_opendir (cstr "/dev/snd") true; ev_closedir].
Proof.
  apply (@pcm_list_without_names linux64 toy_host toy_plain_sys
           [cstr "controlC0"; cstr "timer"; cstr "pcmC0D0"]); reflexivity.
Defined.

(** X16, a run of the theorem: open for capture, then read. *)
Lemma reader_open_then_read_witness :
  let '(_, p', s') :=
    @interleaved_pcm_reader_open linux64 toy_host pcm_new 0 0 false toy_sys in
  exists ret,
    let '(r, s2) := @read_unformatted linux64 toy_host p' 0 10 s' in
    trace s2 = [ev_open (cstr "/dev/snd/pcmC0D0c") 2 3;
                ev_ioctl 3 SNDRV_PCM_IOCTL_READI_FRAMES ret].
Proof.
  pose proof (@reader_open_then_read linux64 toy_host pcm_new
                (mk_pcm_impl (-1)) 0 0 false 0 10 toy_sys eq_refl eq_refl)
    as Hw.
  cbv zeta in Hw.
  specialize (Hw ltac:(vm_compute; discriminate)).
  destruct (@interleaved_pcm_reader_open linux64 toy_host pcm_new 0 0 false
              toy_sys) as [[r p'] s'].
  destruct Hw as [ret Hw]. exists ret.
  destruct (@read_unformatted linux64 toy_host p' 0 10 s') as [g s2].
  destruct Hw as (Ht & _). exact Ht.
Defined.
